(** * Vocabulary trainer: progress tracking, review scheduling and selection

    A shallow embedding of the decision logic of the study page
    (the single React component of the repository) together with the
    properties its specification states about it.

    Modelling conventions.
    - JavaScript numbers that count things or rank words are integers [Z];
      timestamps ([Date.now()], milliseconds since the epoch) are naturals
      [N].  Arithmetic is exact (the double-precision range in which JS
      integer arithmetic is exact is never left by the quantities here).
    - An optional field ([x?: T], [T | null]) is an [option].
    - The progress store ([Record<string, ProgressData>]) is a finite map
      from the headword to its progress, holding the own keys of the
      object.  A lookup [prev[w]] also finds the members the object inherits
      from [Object.prototype] ([object_prototype_keys]): the handlers
      [updateProgressJS], [gradeFlashJS], [onChooseFrom] return [None] where
      the code would hand such a member, which is no progress record, to the
      updater.  [localStorage] maps a key to the stored mapping (the JSON
      text is represented by the value it encodes).
    - A handler called from an event listener is the closure of the render
      in which the listener was installed: [onChooseFrom] and [quizKeydown]
      take the state of that render as an argument of its own.
    - [Math.random()] draws from an explicit stream of rationals; the clock
      readings an updater takes with [now()] are explicit arguments.
    - Built-ins of the JS engine whose result depends on Unicode tables or
      the locale ([toLowerCase], [trim], [includes], [split(/\s+/)],
      [localeCompare]) are an interface, [JSString]; an ASCII instance is
      given so that every definition can be evaluated. *)

From Stdlib Require Import QArith Qround Ascii String.
From stdpp Require Import base list strings gmap pretty sorting.

Local Open Scope Z_scope.

(* ===================================================================== *)
(** * Data model *)
(* ===================================================================== *)

Record WordItem := mkWordItem {
  value : string;
  usphone : option string;
  ukphone : option string;
  translation : option string;
  definition : option string;
  pos : option string;
  collins : option Z;
  oxford : option bool;
  tag : option string;
  bnc : option Z;
  frq : option Z;
}.

Record DictionaryFile := mkDictionaryFile {
  name : option string;
  type : string;
  language : option string;
  dsize : option Z;
  relateVideoPath : option string;
  subtitlesTrackId : option Z;
  wordList : option (list WordItem);
}.

Record ProgressData := mkProgressData {
  known : bool;
  favorite : bool;
  seenCount : Z;
  correctCount : Z;
  streak : Z;
  lastReviewed : option N;
  nextDue : option N;
}.

(** [interface WordWithProgress extends WordItem]: the coercion plays the
    part of the inherited fields. *)
Record WordWithProgress := mkWord {
  item :> WordItem;
  id : string;
  progress : ProgressData;
}.

Definition sampleData : DictionaryFile :=
  {| name := Some "Default"; type := "DOCUMENT"; language := Some "";
     dsize := Some 5; relateVideoPath := Some ""; subtitlesTrackId := Some 0;
     wordList := Some [] |}.

Definition defaultProgress : ProgressData :=
  {| known := false; favorite := false; seenCount := 0; correctCount := 0;
     streak := 0; lastReviewed := None; nextDue := None |}.

(* ===================================================================== *)
(** * JavaScript idioms *)
(* ===================================================================== *)

(** [s || d] on strings: the empty string is falsy. *)
Definition or_str (s d : string) : string :=
  if decide (s = "") then d else s.

(** [o || d] where [o] may also be [undefined]. *)
Definition or_ostr (o : option string) (d : string) : string :=
  match o with
  | Some s => or_str s d
  | None => d
  end.

(** Numbers as a comparator of [Array.prototype.sort] sees them: finite
    values, the two infinities and NaN. *)
Inductive jsnum :=
| Num (z : Z)
| PosInf
| NegInf
| NaN.

Definition Infinity : jsnum := PosInf.

(** [o || d] on an optional number: [undefined] and [0] are falsy. *)
Definition or_num (o : option Z) (d : jsnum) : jsnum :=
  match o with
  | Some z => if z =? 0 then d else Num z
  | None => d
  end.

(** [a - b]. *)
Definition jssub (a b : jsnum) : jsnum :=
  match a, b with
  | NaN, _ | _, NaN => NaN
  | Num x, Num y => Num (x - y)
  | Num _, PosInf => NegInf
  | Num _, NegInf => PosInf
  | PosInf, PosInf => NaN
  | PosInf, _ => PosInf
  | NegInf, NegInf => NaN
  | NegInf, _ => NegInf
  end.

(** What the sort makes of a comparator's result: negative, zero or
    positive; NaN counts as zero. *)
Definition sortCompare (v : jsnum) : comparison :=
  match v with
  | Num z => z ?= 0
  | PosInf => Gt
  | NegInf => Lt
  | NaN => Eq
  end.

(** [l.filter((x, i) => f i x)]: the callback also receives the index. *)
Fixpoint filteri_from {A} (f : nat → A → bool) (i : nat) (l : list A) : list A :=
  match l with
  | [] => []
  | x :: xs =>
      if f i x then x :: filteri_from f (S i) xs else filteri_from f (S i) xs
  end.

Definition filteri {A} (f : nat → A → bool) (l : list A) : list A :=
  filteri_from f 0 l.

(** Engine built-ins on strings. [localeCompare a b] is the sign of
    [a.localeCompare(b)]. *)
Class JSString := {
  toLowerCase : string → string;
  trim : string → string;
  includes : string → string → bool;
  split_ws : string → list string;
  localeCompare : string → string → comparison;
}.

(** ECMAScript requires [localeCompare] to be a consistent comparator. *)
Definition consistent {A} (cmp : A → A → comparison) : Prop :=
  (∀ x, cmp x x = Eq) ∧
  (∀ x y, cmp y x = CompOpp (cmp x y)) ∧
  (∀ x y z, cmp x y ≠ Gt → cmp y z ≠ Gt → cmp x z ≠ Gt).

(* ===================================================================== *)
(** * State with effects: a small state monad *)
(* ===================================================================== *)

Definition State (S A : Type) : Type := S → A * S.

Definition ret {S A} (a : A) : State S A := λ s, (a, s).

Definition bind {S A B} (m : State S A) (k : A → State S B) : State S B :=
  λ s, let '(a, s') := m s in k a s'.

Notation "'let*' x := m 'in' k" := (bind m (λ x, k))
  (at level 10, x name, m at level 100, k at level 200, only parsing).

(** The randomness source: the stream of the values [Math.random()]
    returns, each in [0, 1). *)
Definition Rand : Type := nat → Q.

Definition random : State Rand Q :=
  λ r, (r 0%nat, λ n, r (S n)).

Definition unit_draws (r : Rand) : Prop :=
  ∀ n, (0 <= r n)%Q ∧ (r n < 1)%Q.

(** [Math.floor(x)] for a non-negative [x], as an array index. *)
Definition floor_index (x : Q) : nat := Z.to_nat (Qfloor x).

(* ===================================================================== *)
(** * Array.prototype.sort *)
(* ===================================================================== *)

(** The sort is stable (ECMAScript 2019).  For a consistent comparator its
    result is therefore determined ([sort_unique] below); it is modelled by
    an insertion sort.  The comparator may have effects (the shuffles of the
    quiz draw a random number in it), so it runs in the state monad; [sort]
    is the special case of a pure comparator.  With the random comparator
    the order is up to the engine; the properties of the quiz below use only
    that the result is a rearrangement of the input ([sortM_perm]). *)
Fixpoint insertM {S A} (cmp : A → A → State S comparison) (x : A) (l : list A)
  : State S (list A) :=
  match l with
  | [] => ret [x]
  | y :: ys =>
      let* c := cmp x y in
      match c with
      | Gt => let* ys' := insertM cmp x ys in ret (y :: ys')
      | _ => ret (x :: y :: ys)
      end
  end.

Fixpoint sortM {S A} (cmp : A → A → State S comparison) (l : list A)
  : State S (list A) :=
  match l with
  | [] => ret []
  | x :: xs => let* xs' := sortM cmp xs in insertM cmp x xs'
  end.

Fixpoint insert_sorted {A} (cmp : A → A → comparison) (x : A) (l : list A) : list A :=
  match l with
  | [] => [x]
  | y :: ys =>
      match cmp x y with
      | Gt => y :: insert_sorted cmp x ys
      | _ => x :: y :: ys
      end
  end.

Fixpoint sort {A} (cmp : A → A → comparison) (l : list A) : list A :=
  match l with
  | [] => []
  | x :: xs => insert_sorted cmp x (sort cmp xs)
  end.

(** [() => Math.random() - 0.5]: ignores both elements. *)
Definition random_order {A} (_ _ : A) : State Rand comparison :=
  let* r := random in ret (Qcompare (r - (1 # 2)) 0).

(* ===================================================================== *)
(** * Word catalog and persistence key *)
(* ===================================================================== *)

Definition normalizeDictionary (file : DictionaryFile) : list WordWithProgress :=
  let list := default [] (wordList file) in
  imap (λ idx w,
    {| item := w;
       id := value w +:+ "-" +:+ pretty idx;
       progress := defaultProgress |}) list.

Definition getProgressKey (dictName : string) : string :=
  "word-progress-" +:+ or_str dictName "default".

(** [dict?.name]. *)
Definition dict_name (dict : option DictionaryFile) : option string :=
  dict ≫= name.

(* ===================================================================== *)
(** * Review scheduler *)
(* ===================================================================== *)

Inductive Grade := again | good | easy.

(** Spaced repetition intervals (ms). *)
Definition INTERVALS (g : Grade) : N :=
  match g with
  | again => 10 * 1000
  | good => 10 * 60 * 1000
  | easy => 60 * 60 * 1000
  end%N.

Definition is_again (g : Grade) : bool :=
  match g with again => true | _ => false end.

(** The updater [gradeFlash] hands to [updateProgress].  It calls [now()]
    twice: [tReviewed] is the reading stored in [lastReviewed], [tDue] the
    one [nextDue] is computed from. *)
Definition gradeFlash_updater (grade : Grade) (tReviewed tDue : N)
    (p : ProgressData) : ProgressData :=
  {| known := known p;
     favorite := favorite p;
     seenCount := seenCount p + 1;
     correctCount := if is_again grade then correctCount p else correctCount p + 1;
     streak := if is_again grade then 0 else streak p + 1;
     lastReviewed := Some tReviewed;
     nextDue := Some (tDue + INTERVALS grade)%N |}.

(** The updater of [onChoose]. *)
Definition onChoose_updater (isCorrect : bool) (tReviewed tDue : N)
    (p : ProgressData) : ProgressData :=
  {| known := known p;
     favorite := favorite p;
     seenCount := seenCount p + 1;
     correctCount := correctCount p + (if isCorrect then 1 else 0);
     streak := if isCorrect then streak p + 1 else 0;
     lastReviewed := Some tReviewed;
     nextDue := Some (tDue + (if isCorrect then INTERVALS good else INTERVALS again))%N |}.

(* ===================================================================== *)
(** * Application state *)
(* ===================================================================== *)

Record Filters := mkFilters {
  search : string;
  tagFilter : string;
  onlyFavorites : bool;
  onlyDue : bool;
  sortBy : string;
}.

(** The React state of the page that the handlers below read and write,
    together with [localStorage].  The setters stand for the state setters
    of the component. *)
Record App := mkApp {
  dict : option DictionaryFile;
  words : list WordWithProgress;
  progressStore : gmap string ProgressData;
  localStorage : gmap string (gmap string ProgressData);
  flashIndex : nat;
  flashRevealed : bool;
  quizIndex : nat;
  quizAnswered : option nat;
  quizOptions : list WordWithProgress;
}.

Definition setProgressStore (m : gmap string ProgressData) (s : App) : App :=
  mkApp (dict s) (words s) m (localStorage s) (flashIndex s) (flashRevealed s)
        (quizIndex s) (quizAnswered s) (quizOptions s).

Definition localStorage_setItem (key : string) (m : gmap string ProgressData)
    (s : App) : App :=
  mkApp (dict s) (words s) (progressStore s) (<[key := m]> (localStorage s))
        (flashIndex s) (flashRevealed s)
        (quizIndex s) (quizAnswered s) (quizOptions s).

Definition setFlashIndex (i : nat) (s : App) : App :=
  mkApp (dict s) (words s) (progressStore s) (localStorage s) i (flashRevealed s)
        (quizIndex s) (quizAnswered s) (quizOptions s).

Definition setFlashRevealed (b : bool) (s : App) : App :=
  mkApp (dict s) (words s) (progressStore s) (localStorage s) (flashIndex s) b
        (quizIndex s) (quizAnswered s) (quizOptions s).

Definition setQuizIndex (i : nat) (s : App) : App :=
  mkApp (dict s) (words s) (progressStore s) (localStorage s)
        (flashIndex s) (flashRevealed s) i (quizAnswered s) (quizOptions s).

Definition setQuizAnswered (a : option nat) (s : App) : App :=
  mkApp (dict s) (words s) (progressStore s) (localStorage s)
        (flashIndex s) (flashRevealed s) (quizIndex s) a (quizOptions s).

Definition setQuizOptions (o : list WordWithProgress) (s : App) : App :=
  mkApp (dict s) (words s) (progressStore s) (localStorage s)
        (flashIndex s) (flashRevealed s) (quizIndex s) (quizAnswered s) o.

(** The key [updateProgress] and the load effect use. *)
Definition activeKey (s : App) : string :=
  getProgressKey (or_ostr (dict_name (dict s)) "Default").

(** The key [onFileChange] loads the stored progress from. *)
Definition onFileChange_key (json : DictionaryFile) : string :=
  getProgressKey (or_ostr (name json) "default").

(** [prev[wordValue] || { ...defaultProgress }], read by own keys; [currentJS]
    below adds the members found through the prototype chain. *)
Definition currentOrDefault (prev : gmap string ProgressData) (wordValue : string)
  : ProgressData :=
  default defaultProgress (prev !! wordValue).

Definition updateProgress (wordValue : string)
    (updater : ProgressData → ProgressData) (s : App) : App :=
  let prev := progressStore s in
  let current := currentOrDefault prev wordValue in
  let next := <[wordValue := updater current]> prev in
  setProgressStore next (localStorage_setItem (activeKey s) next s).

Definition setDict (d : option DictionaryFile) (s : App) : App :=
  mkApp d (words s) (progressStore s) (localStorage s)
        (flashIndex s) (flashRevealed s)
        (quizIndex s) (quizAnswered s) (quizOptions s).

Definition setWords (ws : list WordWithProgress) (s : App) : App :=
  mkApp (dict s) ws (progressStore s) (localStorage s)
        (flashIndex s) (flashRevealed s)
        (quizIndex s) (quizAnswered s) (quizOptions s).

(** The import handler, from the parsed file on.  A file without a word
    list is rejected and nothing changes; otherwise the catalog is replaced
    and the progress stored under [onFileChange_key] is loaded (an empty
    mapping when nothing is stored there). *)
Definition onFileChange (json : DictionaryFile) (s : App) : App :=
  match wordList json with
  | None => s
  | Some _ =>
      let s1 := setDict (Some json) s in
      let s2 := setWords (normalizeDictionary json) s1 in
      let raw := localStorage s !! onFileChange_key json in
      let obj := default ∅ raw in
      setProgressStore obj s2
  end.

(** The effect that reloads the store when [dict?.name] changes. *)
Definition loadStoredProgress (s : App) : App :=
  setProgressStore (default ∅ (localStorage s !! activeKey s)) s.

(** The effect that merges the store into the word list.  Here the record
    found is spread over the default state; an inherited member has no
    enumerable property of its own and adds nothing, so the reading by own
    keys is the one of the code for every headword. *)
Definition mergeProgress (store : gmap string ProgressData)
    (prev : list WordWithProgress) : list WordWithProgress :=
  map (λ w, {| item := item w; id := id w;
               progress := currentOrDefault store (value w) |}) prev.

(* ===================================================================== *)
(** * Selection engine *)
(* ===================================================================== *)

(** The due test as the filter writes it:
    [w.progress.nextDue ? w.progress.nextDue <= nowTs : true]. *)
Definition due_in_filter (p : ProgressData) (nowTs : N) : bool :=
  match nextDue p with
  | None => true
  | Some d => if (d =? 0)%N then true else (d <=? nowTs)%N
  end.

(** The due test as the statistics write it:
    [!w.progress.nextDue || w.progress.nextDue <= nowTs]. *)
Definition due_in_stats (p : ProgressData) (nowTs : N) : bool :=
  match nextDue p with
  | None => true
  | Some d => (d =? 0)%N || (d <=? nowTs)%N
  end.

(** The comparator of the [switch (sortBy)]. *)
Definition compareWords `{JSString} (sortBy : string) (a b : WordWithProgress)
  : comparison :=
  if (sortBy =? "bnc")%string then
    sortCompare (jssub (or_num (bnc a) Infinity) (or_num (bnc b) Infinity))
  else if (sortBy =? "frq")%string then
    sortCompare (jssub (or_num (frq a) Infinity) (or_num (frq b) Infinity))
  else if (sortBy =? "collins")%string then
    sortCompare (jssub (or_num (collins b) (Num 0)) (or_num (collins a) (Num 0)))
  else if (sortBy =? "progress")%string then
    sortCompare (jssub (or_num (Some (streak (progress b))) (Num 0))
                       (or_num (Some (streak (progress a))) (Num 0)))
  else
    localeCompare (value a) (value b).

Section Selection.
Context `{JSString}.

Definition matchQuery (q : string) (w : WordWithProgress) : bool :=
  bool_decide (q = "")
  || includes (toLowerCase (value w)) q
  || includes (toLowerCase (or_ostr (translation w) "")) q.

Definition matchTag (f : Filters) (w : WordWithProgress) : bool :=
  (tagFilter f =? "all")%string
  || bool_decide (tagFilter f ∈ split_ws (or_ostr (tag w) "")).

Definition matchFav (f : Filters) (w : WordWithProgress) : bool :=
  negb (onlyFavorites f) || favorite (progress w).

Definition matchDue (f : Filters) (nowTs : N) (w : WordWithProgress) : bool :=
  negb (onlyDue f) || due_in_filter (progress w) nowTs.

Definition keep (f : Filters) (nowTs : N) (w : WordWithProgress) : bool :=
  let q := toLowerCase (trim (search f)) in
  matchQuery q w && matchTag f w && matchFav f w && matchDue f nowTs w.

Definition filteredWords (ws : list WordWithProgress) (f : Filters) (nowTs : N)
  : list WordWithProgress :=
  let list := List.filter (keep f nowTs) ws in
  sort (compareWords (sortBy f)) list.

End Selection.

(* ===================================================================== *)
(** * Statistics *)
(* ===================================================================== *)

(** The counters of [stats]; the two percentages are rounded floating-point
    quotients and are left out. *)
Record Stats := mkStats {
  total : nat;
  st_known : nat;
  studied : nat;
  due : nat;
}.

Definition stats_step (nowTs : N) (acc : Stats) (w : WordWithProgress) : Stats :=
  {| total := total acc;
     st_known := if known (progress w) then S (st_known acc) else st_known acc;
     studied := if 0 <? seenCount (progress w) then S (studied acc) else studied acc;
     due := if due_in_stats (progress w) nowTs then S (due acc) else due acc |}.

Definition stats (ws : list WordWithProgress) (nowTs : N) : Stats :=
  fold_left (stats_step nowTs) ws
    {| total := length ws; st_known := 0; studied := 0; due := 0 |}.

(* ===================================================================== *)
(** * Flashcards *)
(* ===================================================================== *)

(** [fw] is the memoised [filteredWords] the handler closes over
    ([flashList] is the same list). *)
Definition gradeFlash (fw : list WordWithProgress) (grade : Grade)
    (tReviewed tDue : N) (s : App) : App :=
  match (fw !! flashIndex s : option WordWithProgress) with
  | None => s
  | Some currentFlash =>
      let s1 := updateProgress (value currentFlash)
                  (gradeFlash_updater grade tReviewed tDue) s in
      let s2 := setFlashRevealed false s1 in
      setFlashIndex ((flashIndex s2 + 1) `mod` Nat.max 1 (length fw))%nat s2
  end.

(* ===================================================================== *)
(** * Quiz *)
(* ===================================================================== *)

(** [Math.random()] is below 1, so [base[correctIdx]] is always an element
    ([correctIdx_in_range] below); the handler is modelled as doing nothing
    in the other case. *)
Definition generateQuiz (fw : list WordWithProgress) (s : App) : State Rand App :=
  let base := if bool_decide (length fw ≠ 0%nat) then fw else words s in
  if bool_decide (length base = 0%nat) then ret s else
  let* r := random in
  let correctIdx := floor_index (r * inject_Z (Z.of_nat (length base))) in
  match (base !! correctIdx : option WordWithProgress) with
  | None => ret s
  | Some correct =>
      let pool := filteri (λ i _, bool_decide (i ≠ correctIdx)) base in
      let* sorted := sortM random_order pool in
      let shuffled := take 3 sorted in
      let* opts := sortM random_order (shuffled ++ [correct]) in
      ret (setQuizAnswered None (setQuizOptions opts (setQuizIndex correctIdx s)))
  end.

Definition onChoose (fw : list WordWithProgress) (idx : nat)
    (tReviewed tDue : N) (s : App) : App :=
  if bool_decide (length (quizOptions s) = 0%nat) then s else
  if bool_decide (quizAnswered s ≠ None) then s else
  let s1 := setQuizAnswered (Some idx) s in
  match (fw !! quizIndex s : option WordWithProgress),
        (quizOptions s !! idx : option WordWithProgress) with
  | Some correct, Some chosen =>
      let isCorrect := (value chosen =? value correct)%string in
      updateProgress (value correct) (onChoose_updater isCorrect tReviewed tDue) s1
  | _, _ => s1
  end.

(** The correctness check of an option against the target. *)
Definition is_correct_option (target opt : WordWithProgress) : bool :=
  (value opt =? value target)%string.

(* ===================================================================== *)
(** * Tags, flags, navigation, keys, the storage hook, pronunciation *)
(* ===================================================================== *)

Section Tags.
Context `{JSString}.

(** [(w.tag || "").split(/\s+/).filter(Boolean)]: the empty string is
    falsy. *)
Definition word_tags (w : WordWithProgress) : list string :=
  List.filter (λ t, negb (t =? "")%string) (split_ws (or_ostr (tag w) "")).

(** [set.add(t)]: a [Set] keeps its elements in the order of insertion. *)
Definition set_add (set : list string) (t : string) : list string :=
  if bool_decide (t ∈ set) then set else set ++ [t].

(** The tag list of the filter menu.  [sort()] without a comparator orders
    strings by their code units. *)
Definition tags (ws : list WordWithProgress) : list string :=
  let set := fold_left (λ set w, fold_left set_add (word_tags w) set) ws [] in
  sort String.compare set.

End Tags.

(** The updaters of the two flag buttons of the word list. *)
Definition toggleKnown_updater (p : ProgressData) : ProgressData :=
  {| known := negb (known p);
     favorite := favorite p;
     seenCount := seenCount p;
     correctCount := correctCount p;
     streak := streak p;
     lastReviewed := lastReviewed p;
     nextDue := nextDue p |}.

Definition toggleFavorite_updater (p : ProgressData) : ProgressData :=
  {| known := known p;
     favorite := negb (favorite p);
     seenCount := seenCount p;
     correctCount := correctCount p;
     streak := streak p;
     lastReviewed := lastReviewed p;
     nextDue := nextDue p |}.

Definition toggleKnown (w : WordWithProgress) (s : App) : App :=
  updateProgress (value w) toggleKnown_updater s.

Definition toggleFavorite (w : WordWithProgress) (s : App) : App :=
  updateProgress (value w) toggleFavorite_updater s.

(** The members every object inherits from [Object.prototype].  A progress
    store is a plain object, so [prev[wordValue]] finds them when the
    headword has no entry of its own. *)
Definition object_prototype_keys : list string :=
  ["constructor"; "toString"; "toLocaleString"; "valueOf"; "hasOwnProperty";
   "isPrototypeOf"; "propertyIsEnumerable"; "__proto__"; "__defineGetter__";
   "__defineSetter__"; "__lookupGetter__"; "__lookupSetter__"].

Definition inherited_key (w : string) : bool :=
  bool_decide (w ∈ object_prototype_keys).

(** [prev[wordValue] || { ...defaultProgress }] with the prototype chain:
    the own entry when there is one; else, under the name of an inherited
    member, that member, which is truthy and is not a progress record
    ([None]); else the default state.  [currentOrDefault] above is the
    reading by own keys, the same wherever this one finds a record. *)
Definition currentJS (prev : gmap string ProgressData) (wordValue : string)
  : option ProgressData :=
  match prev !! wordValue with
  | Some p => Some p
  | None => if inherited_key wordValue then None else Some defaultProgress
  end.

(** [updateProgress] as the page runs it.  [None]: the updater was handed
    an inherited member, what it returns is not a progress record, and the
    model follows the page no further. *)
Definition updateProgressJS (wordValue : string)
    (updater : ProgressData → ProgressData) (s : App) : option App :=
  let prev := progressStore s in
  match currentJS prev wordValue with
  | None => None
  | Some current =>
      let next := <[wordValue := updater current]> prev in
      Some (setProgressStore next (localStorage_setItem (activeKey s) next s))
  end.

Definition gradeFlashJS (fw : list WordWithProgress) (grade : Grade)
    (tReviewed tDue : N) (s : App) : option App :=
  match (fw !! flashIndex s : option WordWithProgress) with
  | None => Some s
  | Some currentFlash =>
      s1 ← updateProgressJS (value currentFlash)
             (gradeFlash_updater grade tReviewed tDue) s;
      let s2 := setFlashRevealed false s1 in
      Some (setFlashIndex ((flashIndex s2 + 1) `mod` Nat.max 1 (length fw))%nat s2)
  end.

(** [onChoose] as a closure: it reads [quizOptions], [quizAnswered] and
    [quizIndex] from the render it was created in ([snap]); what it sets is
    set in the current state.  A click on an option button calls the
    closure of the current render; the keyboard handler does not (below). *)
Definition onChooseFrom (snap : App) (fw : list WordWithProgress) (idx : nat)
    (tReviewed tDue : N) (s : App) : option App :=
  if bool_decide (length (quizOptions snap) = 0%nat) then Some s else
  if bool_decide (quizAnswered snap ≠ None) then Some s else
  let s1 := setQuizAnswered (Some idx) s in
  match (fw !! quizIndex snap : option WordWithProgress),
        (quizOptions snap !! idx : option WordWithProgress) with
  | Some correct, Some chosen =>
      let isCorrect := (value chosen =? value correct)%string in
      updateProgressJS (value correct)
        (onChoose_updater isCorrect tReviewed tDue) s1
  | _, _ => Some s1
  end.

Definition onChooseJS (fw : list WordWithProgress) (idx : nat)
    (tReviewed tDue : N) (s : App) : option App :=
  onChooseFrom s fw idx tReviewed tDue s.

Definition toggleKnownJS (w : WordWithProgress) (s : App) : option App :=
  updateProgressJS (value w) toggleKnown_updater s.

Definition toggleFavoriteJS (w : WordWithProgress) (s : App) : option App :=
  updateProgressJS (value w) toggleFavorite_updater s.

(** The effect that merges the store into the word list, on the state. *)
Definition mergeEffect (s : App) : App :=
  setWords (mergeProgress (progressStore s) (words s)) s.

(** Flashcard navigation: the ArrowRight and ArrowLeft keys, and the effect
    that goes back to the first card when the list length or the mode
    changes.  [%] is the remainder of JavaScript. *)
Definition flashNext (fw : list WordWithProgress) (s : App) : App :=
  setFlashIndex ((flashIndex s + 1) `mod` Nat.max 1 (length fw))%nat s.

Definition flashPrev (fw : list WordWithProgress) (s : App) : App :=
  let m := Z.of_nat (Nat.max 1 (length fw)) in
  setFlashIndex (Z.to_nat (Z.rem (Z.of_nat (flashIndex s) - 1 + m) m)) s.

Definition flashReset (s : App) : App :=
  setFlashRevealed false (setFlashIndex 0 s).

Inductive ViewMode := list_mode | flash_mode | quiz_mode.

(** [{ "1": 0, "2": 1, "3": 2, "4": 3 }]. *)
Definition quizKeyMap (key : string) : option nat :=
  if (key =? "1")%string then Some 0%nat
  else if (key =? "2")%string then Some 1%nat
  else if (key =? "3")%string then Some 2%nat
  else if (key =? "4")%string then Some 3%nat
  else None.

(** The keyboard handler of the quiz.  The effect that installs it depends
    on [mode], [filteredWords] and [quizIndex] only, so the [onChoose] it
    calls is the closure of the render in which one of these last changed
    ([snap]): its [quizOptions] and [quizAnswered] may be out of date.  The
    key that plays the pronunciation changes no state.  The test
    [e.key in map] also holds for the name of a member that [map] inherits
    from [Object.prototype]; what is then passed on is no index, and the
    result is [None]. *)
Definition quizKeydown (snap : App) (mode : ViewMode) (key : string)
    (fw : list WordWithProgress) (tReviewed tDue : N) (s : App) : option App :=
  match mode with
  | quiz_mode =>
      match quizKeyMap key with
      | Some idx => onChooseFrom snap fw idx tReviewed tDue s
      | None => if inherited_key key then None else Some s
      end
  | _ => Some s
  end.

(** [useLocalStorage(getProgressKey("Default"), {})]: the hook keeps the
    progress store under this one key, whatever the catalog. *)
Definition progressHookKey : string := getProgressKey "Default".


(** The effect of the hook, run when the store has changed. *)
Definition useLocalStorage_effect (s : App) : App :=
  localStorage_setItem progressHookKey (progressStore s) s.

(** Pronunciation.  [playOnce] settles when the audio element reports
    "playing" (resolved) or "error" (rejected); until then it is pending. *)
Inductive PlayOutcome := Resolved | Rejected | Pending.

Inductive Variant := us | uk.

(** How a call of [playYoudaoAudio] ends: some attempt played, the error of
    the last attempt was logged, or an attempt never settled. *)
Inductive AudioResult := Played | Logged | Waiting.

Section Audio.
Variable encodeURIComponent : string → string.
Variable playOnce : string → PlayOutcome.

Definition youdao_base : string := "https://dict.youdao.com/dictvoice".

Definition youdao_queue (variant : Variant) : list nat :=
  match variant with
  | us => [2; 0; 1]
  | uk => [1; 0; 2]
  end%nat.

Definition url_typed (word : string) (t : nat) : string :=
  youdao_base +:+ "?audio=" +:+ encodeURIComponent word +:+ "&type=" +:+ pretty t.

Definition url_plain (word : string) : string :=
  youdao_base +:+ "?audio=" +:+ encodeURIComponent word.

(** The [for] loop over the queue: the URLs tried, and how the loop was
    left ([None]: every attempt was rejected). *)
Fixpoint try_queue (word : string) (queue : list nat)
  : list string * option AudioResult :=
  match queue with
  | [] => ([], None)
  | t :: queue' =>
      let url := url_typed word t in
      match playOnce url with
      | Resolved => ([url], Some Played)
      | Pending => ([url], Some Waiting)
      | Rejected =>
          let '(tried, res) := try_queue word queue' in (url :: tried, res)
      end
  end.

Definition playYoudaoAudio (word : string) (variant : Variant)
  : list string * AudioResult :=
  let '(tried, res) := try_queue word (youdao_queue variant) in
  match res with
  | Some r => (tried, r)
  | None =>
      let url := url_plain word in
      match playOnce url with
      | Resolved => (tried ++ [url], Played)
      | Pending => (tried ++ [url], Waiting)
      | Rejected => (tried ++ [url], Logged)
      end
  end.

End Audio.

(** A session: the handlers and effects run one after the other, each on
    the state the previous one left.  [EChoose] is a click on an option,
    [EQuizKey] a key press handled by the closure of the render [snap]. *)
Inductive Event :=
| EGradeFlash (fw : list WordWithProgress) (grade : Grade) (tReviewed tDue : N)
| EChoose (fw : list WordWithProgress) (idx : nat) (tReviewed tDue : N)
| EQuizKey (snap : App) (key : string) (fw : list WordWithProgress)
    (tReviewed tDue : N)
| EGenerateQuiz (fw : list WordWithProgress) (r : Rand)
| EToggleKnown (w : WordWithProgress)
| EToggleFavorite (w : WordWithProgress)
| EFlashNext (fw : list WordWithProgress)
| EFlashPrev (fw : list WordWithProgress)
| EFlashReset
| EMerge
| EStoreHook.

Definition handle (e : Event) (s : App) : option App :=
  match e with
  | EGradeFlash fw grade tReviewed tDue => gradeFlashJS fw grade tReviewed tDue s
  | EChoose fw idx tReviewed tDue => onChooseJS fw idx tReviewed tDue s
  | EQuizKey snap key fw tReviewed tDue =>
      quizKeydown snap quiz_mode key fw tReviewed tDue s
  | EGenerateQuiz fw r => Some (generateQuiz fw s r).1
  | EToggleKnown w => toggleKnownJS w s
  | EToggleFavorite w => toggleFavoriteJS w s
  | EFlashNext fw => Some (flashNext fw s)
  | EFlashPrev fw => Some (flashPrev fw s)
  | EFlashReset => Some (flashReset s)
  | EMerge => Some (mergeEffect s)
  | EStoreHook => Some (useLocalStorage_effect s)
  end.

Fixpoint session (es : list Event) (s : App) : option App :=
  match es with
  | [] => Some s
  | e :: es' =>
      match handle e s with
      | Some s' => session es' s'
      | None => None
      end
  end.

(** The headwords an event may update are no names of inherited members. *)
Definition event_safe (e : Event) : Prop :=
  match e with
  | EGradeFlash fw _ _ _ | EChoose fw _ _ _ =>
      ∀ w : WordWithProgress, w ∈ fw → inherited_key (value w) = false
  | EQuizKey _ key fw _ _ =>
      inherited_key key = false ∧
      ∀ w : WordWithProgress, w ∈ fw → inherited_key (value w) = false
  | EToggleKnown w | EToggleFavorite w => inherited_key (value w) = false
  | _ => True
  end.

(* ===================================================================== *)
(** * An ASCII instance of the string built-ins *)
(* ===================================================================== *)

(** Used to evaluate the definitions on concrete inputs: lower-casing of
    the letters A-Z, trimming and splitting at the ASCII white space, and
    comparison by code unit. *)
Definition ascii_lower (c : ascii) : ascii :=
  let n := nat_of_ascii c in
  if ((65 <=? n) && (n <=? 90))%nat then ascii_of_nat (n + 32) else c.

Fixpoint string_map (f : ascii → ascii) (s : string) : string :=
  match s with
  | EmptyString => EmptyString
  | String c s' => String (f c) (string_map f s')
  end.

Fixpoint trim_start (s : string) : string :=
  match s with
  | EmptyString => EmptyString
  | String c s' => if Ascii.is_space c then trim_start s' else s
  end.

Definition ascii_trim (s : string) : string :=
  String.rev (trim_start (String.rev (trim_start s))).

Fixpoint string_includes (s q : string) : bool :=
  String.prefix q s
  || match s with
     | EmptyString => false
     | String _ s' => string_includes s' q
     end.

(** [cur] is the token being read, reversed; [in_ws] tells whether the
    previous character was white space. *)
Fixpoint split_go (cur : string) (in_ws : bool) (s : string) : list string :=
  match s with
  | EmptyString => [String.rev cur]
  | String c s' =>
      if Ascii.is_space c then
        if in_ws then split_go cur true s'
        else String.rev cur :: split_go EmptyString true s'
      else split_go (String c cur) false s'
  end.

Definition ascii_split_ws (s : string) : list string :=
  split_go EmptyString false s.

Definition ascii_strings : JSString :=
  {| toLowerCase := string_map ascii_lower;
     trim := ascii_trim;
     includes := string_includes;
     split_ws := ascii_split_ws;
     localeCompare := String.compare |}.

(* ===================================================================== *)
(** * Sample data for the examples *)
(* ===================================================================== *)

Definition word (v : string) : WordItem :=
  {| value := v; usphone := None; ukphone := None; translation := None;
     definition := None; pos := None; collins := None; oxford := None;
     tag := None; bnc := None; frq := None |}.

Definition word_bnc (v : string) (r : Z) : WordItem :=
  {| value := v; usphone := None; ukphone := None; translation := None;
     definition := None; pos := None; collins := None; oxford := None;
     tag := None; bnc := Some r; frq := None |}.

Definition word_frq (v : string) (r : Z) : WordItem :=
  {| value := v; usphone := None; ukphone := None; translation := None;
     definition := None; pos := None; collins := None; oxford := None;
     tag := None; bnc := None; frq := Some r |}.

Definition catalog (name : option string) (l : list WordItem) : DictionaryFile :=
  {| name := name; type := "DOCUMENT"; language := None; dsize := None;
     relateVideoPath := None; subtitlesTrackId := None; wordList := Some l |}.

Definition no_filters (sortBy : string) : Filters :=
  {| search := ""; tagFilter := "all"; onlyFavorites := false;
     onlyDue := false; sortBy := sortBy |}.

Definition initialApp (d : DictionaryFile) : App :=
  {| dict := Some d; words := normalizeDictionary d; progressStore := ∅;
     localStorage := ∅; flashIndex := 0; flashRevealed := false;
     quizIndex := 0; quizAnswered := None; quizOptions := [] |}.

(** A randomness source that always returns the same draw. *)
Definition constant_draws (q : Q) : Rand := λ _, q.

(* ===================================================================== *)
(** * Vocabulary of the statements *)
(* ===================================================================== *)

Definition setOnlyDue (b : bool) (f : Filters) : Filters :=
  mkFilters (search f) (tagFilter f) (onlyFavorites f) b (sortBy f).

(** The due predicate in the words of the specification: [nextDue] is
    absent, or it is not after [nowTs]. *)
Definition is_due (p : ProgressData) (nowTs : N) : Prop :=
  nextDue p = None ∨ ∃ d, nextDue p = Some d ∧ (d ≤ nowTs)%N.

(** Two entries have the same sort key when the comparator returns zero. *)
Definition same_key {A} (cmp : A → A → comparison) (x y : A) : bool :=
  match cmp x y with Eq => true | _ => false end.

(** [x] may stand before [y]: the comparator does not put [y] first. *)
Definition not_after {A} (cmp : A → A → comparison) (x y : A) : Prop :=
  cmp x y ≠ Gt.

(** The rank a sort by [bnc] or [frq] goes by: the field when it is present
    and not zero. *)
Definition ranked (field : option Z) : option Z :=
  match field with
  | Some z => if z =? 0 then None else Some z
  | None => None
  end.

(** A comparator that subtracts numeric keys. *)
Definition by_key {A} (k : A → jsnum) (a b : A) : comparison :=
  sortCompare (jssub (k a) (k b)).

(** The field a sort by rank reads: [bnc] under the key "bnc", [frq]
    under the key "frq". *)
Definition rank_field (key : string) (w : WordItem) : option Z :=
  if (key =? "bnc")%string then bnc w else frq w.

(** The headwords of a list of entries. *)
Definition values (l : list WordWithProgress) : list string :=
  (λ w : WordWithProgress, value w) <$> l.

(** The list [generateQuiz] draws from: the active set, or the whole
    catalog when the active set is empty. *)
Definition quiz_base (fw : list WordWithProgress) (s : App) : list WordWithProgress :=
  if bool_decide (length fw ≠ 0%nat) then fw else words s.

(** Ten words, the size of the example of the specification. *)
Definition ten_words : list WordItem :=
  [word "ant"; word "bee"; word "cat"; word "dog"; word "eel";
   word "fox"; word "gnu"; word "hen"; word "ibis"; word "jay"].

Definition setOnlyFavorites (b : bool) (f : Filters) : Filters :=
  mkFilters (search f) (tagFilter f) b (onlyDue f) (sortBy f).

Definition setTagFilter (t : string) (f : Filters) : Filters :=
  mkFilters (search f) t (onlyFavorites f) (onlyDue f) (sortBy f).

(** The shape of a progress record the handlers can produce: the counters
    are ordered, a word never reviewed has no timestamps, a reviewed word
    has both, its due time at least one "again" interval after the epoch. *)
Definition progress_ok (p : ProgressData) : Prop :=
  0 ≤ streak p ∧ streak p ≤ correctCount p ∧ correctCount p ≤ seenCount p ∧
  (seenCount p = 0 → lastReviewed p = None ∧ nextDue p = None) ∧
  (0 < seenCount p →
     is_Some (lastReviewed p) ∧ ∃ d, nextDue p = Some d ∧ (10000 ≤ d)%N).

Definition store_ok (s : App) : Prop :=
  map_Forall (λ _ p, progress_ok p) (progressStore s).

(** What is stored for the active catalog is the store in memory. *)
Definition saved_in_sync (s : App) : Prop :=
  default ∅ (localStorage s !! activeKey s) = progressStore s.

(** The URLs a pronunciation request may try, in order. *)
Definition audio_candidates (encodeURIComponent : string → string)
    (word : string) (variant : Variant) : list string :=
  (url_typed encodeURIComponent word <$> youdao_queue variant)
  ++ [url_plain encodeURIComponent word].

Definition word_collins (v : string) (c : Z) : WordItem :=
  {| value := v; usphone := None; ukphone := None; translation := None;
     definition := None; pos := None; collins := Some c; oxford := None;
     tag := None; bnc := None; frq := None |}.

Definition word_tagged (v : string) (t : string) : WordItem :=
  {| value := v; usphone := None; ukphone := None; translation := None;
     definition := None; pos := None; collins := None; oxford := None;
     tag := Some t; bnc := None; frq := None |}.

(** A progress record after [n] correct reviews in a row at time 0. *)
Definition reviewed (n : Z) (fav : bool) (due : N) : ProgressData :=
  {| known := false; favorite := fav; seenCount := n; correctCount := n;
     streak := n; lastReviewed := Some 0%N; nextDue := Some due |}.

Definition sample_entries : list WordWithProgress :=
  [mkWord (word "ant") "ant-0" (reviewed 1 true 50000);
   mkWord (word "bee") "bee-1" (reviewed 3 false 20000);
   mkWord (word "cat") "cat-2" (reviewed 2 true 20000)].

(* ===================================================================== *)
(** * Review scheduler: the grading transition *)
(* ===================================================================== *)

(** What [updateProgress] writes. *)
Lemma updateProgress_store (w : string) (u : ProgressData → ProgressData) (s : App) :
  progressStore (updateProgress w u s)
  = <[w := u (currentOrDefault (progressStore s) w)]> (progressStore s).
Proof. reflexivity. Qed.

Lemma updateProgress_storage (w : string) (u : ProgressData → ProgressData) (s : App) :
  localStorage (updateProgress w u s)
  = <[activeKey s := progressStore (updateProgress w u s)]> (localStorage s).
Proof. reflexivity. Qed.


(** The examples of the specification: "again" from the default state, two
    "good" in a row, and an "again" after a streak. *)
Example grade_again_from_default :
  gradeFlash_updater again 5000 5000 defaultProgress
  = {| known := false; favorite := false; seenCount := 1; correctCount := 0;
       streak := 0; lastReviewed := Some 5000%N; nextDue := Some 15000%N |}.
Proof. reflexivity. Qed.

Example grade_good_twice :
  let p := gradeFlash_updater good 7 7 (gradeFlash_updater good 5 5 defaultProgress) in
  seenCount p = 2 ∧ correctCount p = 2 ∧ streak p = 2.
Proof. cbn. auto. Qed.

Example grade_again_after_streak :
  let p := gradeFlash_updater again 9 9
             (gradeFlash_updater good 7 7 (gradeFlash_updater good 5 5 defaultProgress)) in
  seenCount p = 3 ∧ correctCount p = 2 ∧ streak p = 0.
Proof. cbn. auto. Qed.

(* ===================================================================== *)
(** * Progress store *)
(* ===================================================================== *)

Lemma inherited_key_false_not_in (w : string) :
  inherited_key w = false ↔ w ∉ object_prototype_keys.
Proof. unfold inherited_key. apply bool_decide_eq_false. Qed.

(** Where the lookup finds a record, the page's update is the update by own
    keys. *)
Lemma currentJS_Some (prev : gmap string ProgressData) (w : string) :
  inherited_key w = false ∨ is_Some (prev !! w) →
  currentJS prev w = Some (currentOrDefault prev w).
Proof.
  unfold currentJS, currentOrDefault. intros [Hw|[p Hp]].
  - destruct (prev !! w); [done|]. by rewrite Hw.
  - by rewrite Hp.
Qed.

Lemma updateProgressJS_Some (w : string) (u : ProgressData → ProgressData) (s : App) :
  inherited_key w = false ∨ is_Some (progressStore s !! w) →
  updateProgressJS w u s = Some (updateProgress w u s).
Proof.
  intros Hw. unfold updateProgressJS. by rewrite (currentJS_Some _ _ Hw).
Qed.





(** An update of an absent word starts from the default state. *)
Example updateProgress_fresh :
  progressStore
    (updateProgress "cat" (gradeFlash_updater good 5 6) (initialApp sampleData))
  !! "cat"
  = Some {| known := false; favorite := false; seenCount := 1; correctCount := 1;
            streak := 1; lastReviewed := Some 5%N; nextDue := Some 600006%N |}.
Proof. vm_compute. reflexivity. Qed.

(** [gradeFlash] applies its updater to the entry of the current card. *)
Lemma gradeFlash_store (fw : list WordWithProgress) (grade : Grade)
    (tReviewed tDue : N) (s : App) (w : WordWithProgress) :
  fw !! flashIndex s = Some w →
  progressStore (gradeFlash fw grade tReviewed tDue s) !! value w
  = Some (gradeFlash_updater grade tReviewed tDue
            (currentOrDefault (progressStore s) (value w))).
Proof.
  intros Hw. unfold gradeFlash. rewrite Hw. cbn. apply lookup_insert_eq.
Qed.

(** Without a current card the handler returns at once. *)
Lemma gradeFlash_no_card (fw : list WordWithProgress) (grade : Grade)
    (tReviewed tDue : N) (s : App) :
  fw !! flashIndex s = None → gradeFlash fw grade tReviewed tDue s = s.
Proof. intros Hw. unfold gradeFlash. by rewrite Hw. Qed.

(* ===================================================================== *)
(** * Persistence key *)
(* ===================================================================== *)

Lemma or_str_nonempty (s d : string) : s ≠ "" → or_str s d = s.
Proof. intros Hs. unfold or_str. by destruct (decide (s = "")). Qed.

(** For a named catalog every path agrees on ["word-progress-" + name]. *)
Lemma progress_key_named (s : App) (d : DictionaryFile) (n : string) :
  dict s = Some d → name d = Some n → n ≠ "" →
  activeKey s = "word-progress-" +:+ n ∧
  onFileChange_key d = "word-progress-" +:+ n.
Proof.
  intros Hd Hn Hne. unfold activeKey, onFileChange_key, getProgressKey, dict_name.
  rewrite Hd. cbn. rewrite Hn. cbn.
  rewrite (or_str_nonempty n "Default"), (or_str_nonempty n "default") by done.
  by rewrite or_str_nonempty.
Qed.

(** A named catalog that is imported again finds the progress that was
    saved for it. *)
Lemma onFileChange_named_reload (s : App) (d : DictionaryFile) (n : string)
    (w : string) (u : ProgressData → ProgressData) :
  dict s = Some d → name d = Some n → n ≠ "" → wordList d ≠ None →
  progressStore (onFileChange d (updateProgress w u s))
  = progressStore (updateProgress w u s).
Proof.
  intros Hd Hn Hne Hwl. unfold onFileChange.
  destruct (wordList d); [|done]. cbn [setProgressStore progressStore].
  destruct (progress_key_named s d n Hd Hn Hne) as [Hk1 Hk2].
  rewrite updateProgress_storage, Hk1, Hk2, lookup_insert_eq. done.
Qed.

(** C9. For an unnamed catalog (name absent or empty) the import path
    computes the key "word-progress-default", in lower case, while saving
    and the load effect use "word-progress-Default": progress saved for an
    unnamed catalog is not found when the catalog is imported again. *)
Theorem onFileChange_key_unnamed :
  onFileChange_key (catalog None []) = "word-progress-default" ∧
  onFileChange_key (catalog (Some "") []) = "word-progress-default" ∧
  getProgressKey "" = "word-progress-default" ∧
  activeKey (initialApp (catalog None [])) = "word-progress-Default" ∧
  activeKey (initialApp (catalog (Some "") [])) = "word-progress-Default" ∧
  let s0 := initialApp (catalog (Some "") [word "cat"]) in
  let s1 := updateProgress "cat" (gradeFlash_updater good 5 6) s0 in
  let s2 := onFileChange (catalog (Some "") [word "cat"]) s1 in
  localStorage s1 !! "word-progress-Default" = Some (progressStore s1) ∧
  is_Some (progressStore s1 !! "cat") ∧
  progressStore (loadStoredProgress s1) = progressStore s1 ∧
  progressStore s2 = ∅.
Proof.
  repeat split; try (vm_compute; reflexivity).
  vm_compute. eauto.
Qed.

(* ===================================================================== *)
(** * The sort: permutation, order, stability *)
(* ===================================================================== *)

Section SortFacts.
Context {A : Type}.
Implicit Types (l : list A) (x y : A).

Lemma insertM_perm {S} (cmp : A → A → State S comparison) x l (s : S) :
  (insertM cmp x l s).1 ≡ₚ x :: l.
Proof.
  revert s. induction l as [|y ys IH]; intros s; cbn; [done|].
  unfold bind. destruct (cmp x y s) as [c s1]. destruct c; cbn; try done.
  specialize (IH s1). destruct (insertM cmp x ys s1) as [ys' s2]. cbn in *.
  rewrite IH. apply Permutation_swap.
Qed.

Lemma sortM_perm {S} (cmp : A → A → State S comparison) l (s : S) :
  (sortM cmp l s).1 ≡ₚ l.
Proof.
  revert s. induction l as [|x xs IH]; intros s; cbn; [done|].
  unfold bind. specialize (IH s). destruct (sortM cmp xs s) as [xs' s1]. cbn in *.
  rewrite insertM_perm. by rewrite IH.
Qed.

(** With a comparator that has no effect the monadic sort is [sort]. *)
Lemma insertM_pure {S} (cmp : A → A → comparison) x l (s : S) :
  insertM (λ a b, ret (cmp a b)) x l s = (insert_sorted cmp x l, s).
Proof.
  induction l as [|y ys IH]; cbn; [done|].
  unfold bind, ret in *. destruct (cmp x y); try done. by rewrite IH.
Qed.

Lemma sortM_pure {S} (cmp : A → A → comparison) l (s : S) :
  sortM (λ a b, ret (cmp a b)) l s = (sort cmp l, s).
Proof.
  induction l as [|x xs IH]; cbn; [done|].
  unfold bind. rewrite IH. apply insertM_pure.
Qed.

Lemma sort_perm (cmp : A → A → comparison) l : sort cmp l ≡ₚ l.
Proof.
  pose proof (sortM_perm (S:=unit) (λ a b, ret (cmp a b)) l ()) as Hp.
  by rewrite sortM_pure in Hp.
Qed.

Lemma elem_of_sort (cmp : A → A → comparison) l x : x ∈ sort cmp l ↔ x ∈ l.
Proof. by rewrite sort_perm. Qed.

Lemma length_sort (cmp : A → A → comparison) l : length (sort cmp l) = length l.
Proof. by rewrite sort_perm. Qed.

Section Consistent.
Variable cmp : A → A → comparison.
Hypothesis Hcmp : consistent cmp.

Lemma consistent_refl x : cmp x x = Eq.
Proof. apply Hcmp. Qed.

Lemma consistent_flip x y : cmp y x = CompOpp (cmp x y).
Proof. apply Hcmp. Qed.

Lemma not_after_trans x y z :
  not_after cmp x y → not_after cmp y z → not_after cmp x z.
Proof. apply Hcmp. Qed.

Lemma not_after_total x y : cmp x y = Gt → not_after cmp y x.
Proof. intros Hxy. unfold not_after. rewrite consistent_flip, Hxy. done. Qed.

#[local] Instance not_after_transitive : Transitive (not_after cmp).
Proof. intros x y z. apply not_after_trans. Qed.

Lemma insert_sorted_HdRel a x l :
  not_after cmp a x → HdRel (not_after cmp) a l →
  HdRel (not_after cmp) a (insert_sorted cmp x l).
Proof.
  intros Hax Hl. destruct l as [|y ys]; cbn; [by constructor|].
  inversion_clear Hl. destruct (cmp x y); by constructor.
Qed.

Lemma insert_sorted_Sorted x l :
  Sorted (not_after cmp) l → Sorted (not_after cmp) (insert_sorted cmp x l).
Proof.
  induction 1 as [|y ys Hys IH Hhd]; cbn; [by repeat constructor|].
  destruct (cmp x y) eqn:Hxy.
  - repeat constructor; try done. unfold not_after. by rewrite Hxy.
  - repeat constructor; try done. unfold not_after. by rewrite Hxy.
  - constructor; [done|]. apply insert_sorted_HdRel; [|done].
    by apply not_after_total.
Qed.

Lemma sort_Sorted l : Sorted (not_after cmp) (sort cmp l).
Proof. induction l; cbn; [constructor|by apply insert_sorted_Sorted]. Qed.

Lemma sort_StronglySorted l : StronglySorted (not_after cmp) (sort cmp l).
Proof. apply Sorted_StronglySorted; [apply _|apply sort_Sorted]. Qed.

(** A list that is in order already is left as it is. *)
Lemma sort_of_Sorted l : Sorted (not_after cmp) l → sort cmp l = l.
Proof.
  induction 1 as [|x xs Hxs IH Hhd]; cbn; [done|].
  rewrite IH. destruct Hhd as [|y ys Hxy]; cbn; [done|].
  unfold not_after in Hxy. by destruct (cmp x y).
Qed.

Lemma sort_idemp l : sort cmp (sort cmp l) = sort cmp l.
Proof. apply sort_of_Sorted, sort_Sorted. Qed.

(** Stability: the entries with the key of [x] come out in the order they
    went in. *)
Lemma same_key_after x a y :
  cmp a y = Gt → same_key cmp x a = true → same_key cmp x y = false.
Proof.
  unfold same_key. intros Hay Hxa.
  destruct (cmp x a) eqn:Hxa'; try done.
  destruct (cmp x y) eqn:Hxy; try done.
  destruct Hcmp as (_ & Hflip & Htrans).
  destruct (Htrans a x y); try done.
  - rewrite Hflip, Hxa'. done.
  - by rewrite Hxy.
Qed.

Lemma filter_insert_sorted x a l :
  List.filter (same_key cmp x) (insert_sorted cmp a l)
  = List.filter (same_key cmp x) (a :: l).
Proof.
  induction l as [|y ys IH]; [done|].
  cbn [insert_sorted]. destruct (cmp a y) eqn:Hay; try done.
  cbn [List.filter] in *. rewrite IH.
  destruct (same_key cmp x a) eqn:Hxa; [|done].
  by rewrite (same_key_after x a y).
Qed.

Lemma sort_stable x l :
  List.filter (same_key cmp x) (sort cmp l) = List.filter (same_key cmp x) l.
Proof.
  induction l as [|a l IH]; [done|].
  cbn [sort]. rewrite filter_insert_sorted. cbn. by rewrite IH.
Qed.

(** The order of a stable sort is determined: two arrangements that are
    both in order and both keep the entries of every key in the same
    sequence are equal.  So whatever algorithm the engine runs, its result
    for a consistent comparator is the list [sort] returns. *)
Lemma same_key_refl x : same_key cmp x x = true.
Proof. unfold same_key. by rewrite consistent_refl. Qed.

Lemma not_after_both x y :
  not_after cmp x y → not_after cmp y x → same_key cmp x y = true.
Proof.
  unfold not_after, same_key. rewrite (consistent_flip x y).
  by destruct (cmp x y).
Qed.

Lemma stable_order_unique l1 l2 :
  Sorted (not_after cmp) l1 → Sorted (not_after cmp) l2 →
  (∀ x, List.filter (same_key cmp x) l1 = List.filter (same_key cmp x) l2) →
  l1 = l2.
Proof.
  intros H1 H2. apply Sorted_StronglySorted in H1; [|apply _].
  apply Sorted_StronglySorted in H2; [|apply _].
  revert l2 H2. induction H1 as [|a l1 Hl1 IH Ha]; intros l2 H2 Hf.
  - destruct l2 as [|b l2]; [done|].
    specialize (Hf b). cbn in Hf. by rewrite same_key_refl in Hf.
  - destruct H2 as [|b l2 Hl2 Hb].
    { specialize (Hf a). cbn in Hf. by rewrite same_key_refl in Hf. }
    assert (same_key cmp a b = true) as Hab.
    { apply not_after_both.
      - assert (b ∈ a :: l1) as Hin.
        { assert (b ∈ List.filter (same_key cmp b) (a :: l1)) as Hin.
          { rewrite (Hf b). cbn. rewrite same_key_refl. left. }
          apply list_elem_of_In, filter_In in Hin as [Hin _].
          by apply list_elem_of_In. }
        apply elem_of_cons in Hin as [->|Hin].
        + unfold not_after. by rewrite consistent_refl.
        + rewrite Forall_forall in Ha. by apply Ha.
      - assert (a ∈ b :: l2) as Hin.
        { assert (a ∈ List.filter (same_key cmp a) (b :: l2)) as Hin.
          { rewrite <-(Hf a). cbn. rewrite same_key_refl. left. }
          apply list_elem_of_In, filter_In in Hin as [Hin _].
          by apply list_elem_of_In. }
        apply elem_of_cons in Hin as [->|Hin].
        + unfold not_after. by rewrite consistent_refl.
        + rewrite Forall_forall in Hb. by apply Hb. }
    assert (a = b) as <-.
    { specialize (Hf a). cbn in Hf. rewrite same_key_refl, Hab in Hf.
      by injection Hf. }
    f_equal. apply IH; [done|]. intros x. specialize (Hf x). cbn in Hf.
    destruct (same_key cmp x a); [by injection Hf|done].
Qed.

Lemma sort_unique l l' :
  Sorted (not_after cmp) l' →
  (∀ x, List.filter (same_key cmp x) l' = List.filter (same_key cmp x) l) →
  l' = sort cmp l.
Proof.
  intros Hs Hf. apply stable_order_unique; [done|apply sort_Sorted|].
  intros x. by rewrite sort_stable.
Qed.

End Consistent.
End SortFacts.

(* ===================================================================== *)
(** * The comparators of the selection *)
(* ===================================================================== *)

Lemma or_num_not_NaN (o : option Z) (d : jsnum) : d ≠ NaN → or_num o d ≠ NaN.
Proof. intros Hd. unfold or_num. destruct o as [z|]; [|done]. by destruct (z =? 0). Qed.

Lemma sortCompare_sub (x y : Z) : sortCompare (jssub (Num x) (Num y)) = (x ?= y).
Proof. cbn. symmetry. apply Z.compare_sub. Qed.

Lemma by_key_consistent {A} (k : A → jsnum) :
  (∀ a, k a ≠ NaN) → consistent (by_key k).
Proof.
  intros Hk. unfold consistent, by_key. split; [|split].
  - intros x. specialize (Hk x). destruct (k x); cbn; try done.
    by rewrite Z.sub_diag.
  - intros x y. pose proof (Hk x). pose proof (Hk y).
    destruct (k x), (k y); try done.
    rewrite !sortCompare_sub. apply Z.compare_antisym.
  - intros x y z. pose proof (Hk x). pose proof (Hk y). pose proof (Hk z).
    destruct (k x), (k y), (k z); try done;
      rewrite ?sortCompare_sub; cbn; try done.
    rewrite !Z.compare_ngt_iff. lia.
Qed.

Lemma flip_consistent {A} (cmp : A → A → comparison) :
  consistent cmp → consistent (λ a b, cmp b a).
Proof.
  intros (Hrefl & Hflip & Htrans). split; [|split].
  - done.
  - intros x y. apply Hflip.
  - intros x y z Hxy Hyz. by apply (Htrans z y x).
Qed.

Lemma on_value_consistent (cmp : string → string → comparison) :
  consistent cmp → consistent (λ a b : WordWithProgress, cmp (value a) (value b)).
Proof.
  intros (Hrefl & Hflip & Htrans). split; [|split].
  - intros x. apply Hrefl.
  - intros x y. apply Hflip.
  - intros x y z. apply Htrans.
Qed.

Section SelectionFacts.
Context `{JSString}.

Lemma compareWords_bnc (a b : WordWithProgress) :
  compareWords "bnc" a b = by_key (λ w : WordWithProgress, or_num (bnc w) Infinity) a b.
Proof. reflexivity. Qed.

Lemma compareWords_frq (a b : WordWithProgress) :
  compareWords "frq" a b = by_key (λ w : WordWithProgress, or_num (frq w) Infinity) a b.
Proof. reflexivity. Qed.

Lemma compareWords_consistent (key : string) :
  consistent localeCompare → consistent (compareWords key).
Proof.
  intros Hloc. unfold compareWords.
  destruct (key =? "bnc")%string.
  { apply (by_key_consistent (λ w : WordWithProgress, or_num (bnc w) Infinity)).
    intros a. by apply or_num_not_NaN. }
  destruct (key =? "frq")%string.
  { apply (by_key_consistent (λ w : WordWithProgress, or_num (frq w) Infinity)).
    intros a. by apply or_num_not_NaN. }
  destruct (key =? "collins")%string.
  { apply (flip_consistent
      (by_key (λ w : WordWithProgress, or_num (collins w) (Num 0)))).
    apply by_key_consistent. intros a. by apply or_num_not_NaN. }
  destruct (key =? "progress")%string.
  { apply (flip_consistent
      (by_key (λ w : WordWithProgress, or_num (Some (streak (progress w))) (Num 0)))).
    apply by_key_consistent. intros a. by apply or_num_not_NaN. }
  by apply on_value_consistent.
Qed.

Lemma elem_of_filteredWords ws f nowTs (w : WordWithProgress) :
  w ∈ filteredWords ws f nowTs ↔ w ∈ ws ∧ keep f nowTs w = true.
Proof.
  unfold filteredWords. rewrite elem_of_sort, !list_elem_of_In.
  apply filter_In.
Qed.

Lemma filter_keep_all {A} (P : A → bool) (l : list A) :
  Forall (λ x, P x = true) l → List.filter P l = l.
Proof. induction 1 as [|x l Hx _ IH]; cbn; [done|]. by rewrite Hx, IH. Qed.

Lemma filteredWords_keep ws f nowTs :
  Forall (λ w, keep f nowTs w = true) (filteredWords ws f nowTs).
Proof.
  apply Forall_forall. intros w Hw. by apply elem_of_filteredWords in Hw as [_ ?].
Qed.

Lemma filteredWords_idemp ws f nowTs :
  consistent localeCompare →
  filteredWords (filteredWords ws f nowTs) f nowTs = filteredWords ws f nowTs.
Proof.
  intros Hloc. unfold filteredWords at 1.
  rewrite filter_keep_all by apply filteredWords_keep.
  unfold filteredWords. apply sort_idemp. by apply compareWords_consistent.
Qed.

Lemma keep_clock_irrelevant f t1 t2 (w : WordWithProgress) :
  onlyDue f = false → keep f t1 w = keep f t2 w.
Proof. intros Hf. unfold keep, matchDue. by rewrite Hf. Qed.

Lemma filteredWords_clock_irrelevant ws f t1 t2 :
  onlyDue f = false → filteredWords ws f t1 = filteredWords ws f t2.
Proof.
  intros Hf. unfold filteredWords. f_equal.
  apply filter_ext. intros w. by apply keep_clock_irrelevant.
Qed.

End SelectionFacts.

Lemma StronglySorted_lookup {A} (R : relation A) (l : list A) (i j : nat) (a b : A) :
  StronglySorted R l → l !! i = Some a → l !! j = Some b → (i < j)%nat → R a b.
Proof.
  intros Hl. revert i j. induction Hl as [|x l Hl IH Hx]; intros i j Hi Hj Hij.
  { by rewrite lookup_nil in Hi. }
  destruct j as [|j]; [lia|]. cbn in Hj. destruct i as [|i]; cbn in Hi.
  - simplify_eq. rewrite Forall_forall in Hx. apply Hx.
    by eapply list_elem_of_lookup_2.
  - apply (IH i j); [done..|lia].
Qed.

(* ===================================================================== *)
(** * The due predicate *)
(* ===================================================================== *)

Lemma due_in_filter_spec (p : ProgressData) (nowTs : N) :
  due_in_filter p nowTs = true ↔ is_due p nowTs.
Proof.
  unfold due_in_filter, is_due. destruct (nextDue p) as [d|]; [|by split; [left|]].
  destruct (d =? 0)%N eqn:Hd.
  - apply N.eqb_eq in Hd as ->. split; [|done]. intros _. right. exists 0%N. split; [done|lia].
  - rewrite N.leb_le. split.
    + intros Hle. right. by exists d.
    + intros [Hn|(d' & Hd' & Hle)]; [done|]. by simplify_eq.
Qed.

Lemma due_in_stats_filter (p : ProgressData) (nowTs : N) :
  due_in_stats p nowTs = due_in_filter p nowTs.
Proof.
  unfold due_in_stats, due_in_filter. destruct (nextDue p) as [d|]; [|done].
  by destruct (d =? 0)%N.
Qed.

Lemma stats_due_from (ws : list WordWithProgress) (nowTs : N) (acc : Stats) :
  due (fold_left (stats_step nowTs) ws acc)
  = (due acc + length (List.filter (λ w, due_in_stats (progress w) nowTs) ws))%nat.
Proof.
  revert acc. induction ws as [|w ws IH]; intros acc; cbn; [lia|].
  rewrite IH. cbn. destruct (due_in_stats (progress w) nowTs); cbn; lia.
Qed.

Lemma keep_onlyDue `{JSString} (f : Filters) (nowTs : N) (w : WordWithProgress) :
  keep (setOnlyDue true f) nowTs w
  = keep (setOnlyDue false f) nowTs w && due_in_filter (progress w) nowTs.
Proof. unfold keep, matchDue. cbn. by rewrite andb_true_r. Qed.

(** C3. A word is due if and only if [nextDue] is absent or not after the
    current time; the due-only filter of the selection keeps exactly the
    words that pass the other filters and are due in this sense, and the
    due count of the statistics counts the words that are due in this
    sense. *)
Theorem due_predicate `{JSString} (ws : list WordWithProgress) (f : Filters) (nowTs : N) :
  (∀ p : ProgressData,
     (due_in_filter p nowTs = true ↔ is_due p nowTs) ∧
     (due_in_stats p nowTs = true ↔ is_due p nowTs)) ∧
  (∀ w : WordWithProgress,
     w ∈ filteredWords ws (setOnlyDue true f) nowTs ↔
     w ∈ filteredWords ws (setOnlyDue false f) nowTs ∧ is_due (progress w) nowTs) ∧
  due (stats ws nowTs)
  = length (List.filter (λ w, due_in_filter (progress w) nowTs) ws).
Proof.
  split; [|split].
  - intros p. split; [|rewrite (due_in_stats_filter p nowTs)]; apply due_in_filter_spec.
  - intros w. rewrite !elem_of_filteredWords, keep_onlyDue, andb_true_iff.
    rewrite due_in_filter_spec. tauto.
  - unfold stats. rewrite stats_due_from. cbn.
    apply (f_equal length), filter_ext. intros w. apply due_in_stats_filter.
Qed.

(** The three cases the specification lists. *)
Example due_when_absent (p : ProgressData) (nowTs : N) :
  nextDue p = None → due_in_filter p nowTs = true ∧ due_in_stats p nowTs = true.
Proof. intros Hp. unfold due_in_filter, due_in_stats. by rewrite Hp. Qed.

Example not_due_a_second_ahead (p : ProgressData) (nowTs : N) :
  nextDue p = Some (nowTs + 1000)%N →
  due_in_filter p nowTs = false ∧ due_in_stats p nowTs = false.
Proof.
  intros Hp. unfold due_in_filter, due_in_stats. rewrite Hp.
  assert ((nowTs + 1000 =? 0)%N = false) as -> by (apply N.eqb_neq; lia).
  by assert ((nowTs + 1000 <=? nowTs)%N = false) as -> by (apply N.leb_gt; lia).
Qed.

Example due_just_passed (p : ProgressData) (nowTs : N) :
  nextDue p = Some (nowTs - 1)%N →
  due_in_filter p nowTs = true ∧ due_in_stats p nowTs = true.
Proof.
  intros Hp. unfold due_in_filter, due_in_stats. rewrite Hp.
  assert ((nowTs - 1 <=? nowTs)%N = true) as -> by (apply N.leb_le; lia).
  by destruct (nowTs - 1 =? 0)%N.
Qed.

(* ===================================================================== *)
(** * Selection: repeatability and stability *)
(* ===================================================================== *)

Lemma filteredWords_same_due `{JSString} (ws : list WordWithProgress)
    (f : Filters) (t1 t2 : N) :
  onlyDue f = false ∨
  (∀ w : WordWithProgress, w ∈ ws →
     due_in_filter (progress w) t1 = due_in_filter (progress w) t2) →
  filteredWords ws f t1 = filteredWords ws f t2.
Proof.
  intros [Hf|Hdue]; [by apply filteredWords_clock_irrelevant|].
  unfold filteredWords. f_equal. apply filter_ext_in. intros w Hw.
  unfold keep, matchDue. rewrite (Hdue w); [done|]. by apply list_elem_of_In.
Qed.

(** C4, as the code has it. The selection reads the clock itself.  Two runs
    on unchanged input, at the clock readings [t1] and [t2], give the same
    ordered output when the due-only filter is off, or when no word changes
    its due status between the two readings.  For every filter setting and
    sort key, at every clock reading: the output is in the order of the sort
    key, the entries that compare equal under the sort key stand in the
    order they have in the catalog, and the selection run on its own output
    returns that output. *)
Theorem select_stable `{JSString} (ws : list WordWithProgress) (f : Filters)
    (t1 t2 : N) :
  consistent localeCompare →
  (onlyDue f = false ∨
   (∀ w : WordWithProgress, w ∈ ws →
      due_in_filter (progress w) t1 = due_in_filter (progress w) t2) →
   filteredWords ws f t1 = filteredWords ws f t2) ∧
  StronglySorted (not_after (compareWords (sortBy f))) (filteredWords ws f t1) ∧
  (∀ x : WordWithProgress,
     List.filter (same_key (compareWords (sortBy f)) x) (filteredWords ws f t1)
     = List.filter (same_key (compareWords (sortBy f)) x)
         (List.filter (keep f t1) ws)) ∧
  filteredWords (filteredWords ws f t1) f t1 = filteredWords ws f t1.
Proof.
  intros Hloc.
  pose proof (compareWords_consistent (sortBy f) Hloc) as Hcmp.
  split; [apply filteredWords_same_due|].
  split; [by apply sort_StronglySorted|].
  split; [intros x; by apply sort_stable|].
  by apply filteredWords_idemp.
Qed.

(** Comparison by code unit is a consistent comparator. *)
Lemma string_compare_consistent : consistent String.compare.
Proof.
  split; [|split].
  - intros x. pose proof (String.compare_antisym x x) as Hx.
    by destruct (String.compare x x).
  - intros x y. apply String.compare_antisym.
  - intros x y z Hxy Hyz.
    assert (String.le x z) as Hxz.
    { transitivity y; unfold String.le, String.leb.
      - by destruct (String.compare x y).
      - by destruct (String.compare y z). }
    unfold String.le, String.leb in Hxz. by destruct (String.compare x z).
Qed.

Lemma select_stable_witness :
  let ws := normalizeDictionary (catalog None [word "b"; word "a"; word "a"]) in
  let f := no_filters "alpha" in
  consistent (@localeCompare ascii_strings) ∧
  (onlyDue f = false ∨
   (∀ w : WordWithProgress, w ∈ ws →
      due_in_filter (progress w) 50 = due_in_filter (progress w) 150) →
   filteredWords (H:=ascii_strings) ws f 50
   = filteredWords (H:=ascii_strings) ws f 150).
Proof.
  intros ws f. split; [exact string_compare_consistent|].
  apply (@select_stable ascii_strings ws f 50%N 150%N string_compare_consistent).
Defined.

(** The claim as the specification words it fails with the due-only filter
    on: on the same word list and filters, a run before a word falls due
    and a run after it give different output. *)
Lemma select_due_only_counterexample :
  let ws := [mkWord (word "ant") "ant-0" (reviewed 1 false 100)] in
  let f := setOnlyDue true (no_filters "alpha") in
  filteredWords (H:=ascii_strings) ws f 50 = [] ∧
  id <$> filteredWords (H:=ascii_strings) ws f 150 = ["ant-0"] ∧
  filteredWords (H:=ascii_strings) ws f 50
  ≠ filteredWords (H:=ascii_strings) ws f 150.
Proof.
  intros ws f.
  split; [vm_compute; reflexivity|]. split; [vm_compute; reflexivity|].
  vm_compute. discriminate.
Qed.

(** The example of the specification: [b, a, a] sorted alphabetically is
    [a, a, b], the two [a] in their catalog order. *)
Example select_b_a_a :
  map id (filteredWords (H:=ascii_strings)
            (normalizeDictionary (catalog None [word "b"; word "a"; word "a"]))
            (no_filters "alpha") 0)
  = ["a-1"; "a-2"; "b-0"].
Proof. vm_compute. reflexivity. Qed.

(* ===================================================================== *)
(** * Selection: the order by frequency rank *)
(* ===================================================================== *)

Lemma by_rank_not_after {A} (g : A → option Z) (a b : A) (y : Z) :
  not_after (by_key (λ w, or_num (g w) Infinity)) a b →
  ranked (g b) = Some y →
  ∃ x, ranked (g a) = Some x ∧ x ≤ y.
Proof.
  unfold not_after, by_key, ranked, or_num. intros Hab Hb.
  destruct (g b) as [zb|]; [|done].
  destruct (zb =? 0) eqn:Ezb; [done|]. simplify_eq.
  destruct (g a) as [za|]; [|done].
  destruct (za =? 0) eqn:Eza; [done|].
  exists za. split; [done|].
  rewrite sortCompare_sub in Hab. by apply Z.compare_le_iff.
Qed.

(** C6, as the code has it. Under the key "bnc" (respectively "frq") the
    entries whose field is present and not zero come out in ascending order
    of the field, and no entry whose field is absent or zero stands before
    one of them: whenever [a] stands before [b] in the output and [b] has a
    non-zero field, so has [a], and it is not greater. *)
Theorem rank_sort_order `{JSString} (ws : list WordWithProgress) (f : Filters)
    (nowTs : N) (i j : nat) (a b : WordWithProgress) (y : Z) :
  sortBy f = "bnc" ∨ sortBy f = "frq" →
  filteredWords ws f nowTs !! i = Some a →
  filteredWords ws f nowTs !! j = Some b →
  (i < j)%nat →
  ranked (rank_field (sortBy f) b) = Some y →
  ∃ x, ranked (rank_field (sortBy f) a) = Some x ∧ x ≤ y.
Proof.
  intros Hkey Hi Hj Hij Hy. unfold filteredWords in Hi, Hj.
  destruct Hkey as [Hkey|Hkey]; rewrite Hkey in *.
  - assert (consistent (compareWords "bnc")) as Hc.
    { apply (by_key_consistent (λ w : WordWithProgress, or_num (bnc w) Infinity)).
      intros w. by apply or_num_not_NaN. }
    pose proof (StronglySorted_lookup _ _ i j a b
                  (sort_StronglySorted _ Hc _) Hi Hj Hij) as Hab.
    by apply (by_rank_not_after (λ w : WordWithProgress, bnc w) a b y).
  - assert (consistent (compareWords "frq")) as Hc.
    { apply (by_key_consistent (λ w : WordWithProgress, or_num (frq w) Infinity)).
      intros w. by apply or_num_not_NaN. }
    pose proof (StronglySorted_lookup _ _ i j a b
                  (sort_StronglySorted _ Hc _) Hi Hj Hij) as Hab.
    by apply (by_rank_not_after (λ w : WordWithProgress, frq w) a b y).
Qed.

Lemma rank_sort_order_witness :
  let ws := normalizeDictionary
              (catalog None [word "none"; word_bnc "nine" 9; word_bnc "zero" 0;
                             word_bnc "five" 5]) in
  let five := mkWord (word_bnc "five" 5) "five-3" defaultProgress in
  let nine := mkWord (word_bnc "nine" 9) "nine-1" defaultProgress in
  filteredWords (H:=ascii_strings) ws (no_filters "bnc") 0 !! 0%nat = Some five ∧
  filteredWords (H:=ascii_strings) ws (no_filters "bnc") 0 !! 1%nat = Some nine ∧
  ∃ x, ranked (rank_field "bnc" five) = Some x ∧ x ≤ 9.
Proof.
  intros ws five nine.
  split; [vm_compute; reflexivity|].
  split; [vm_compute; reflexivity|].
  apply (@rank_sort_order ascii_strings ws (no_filters "bnc") 0%N 0%nat 1%nat
           five nine 9).
  - left. reflexivity.
  - vm_compute. reflexivity.
  - vm_compute. reflexivity.
  - lia.
  - reflexivity.
Defined.

Example rank_sort_sample :
  map id (filteredWords (H:=ascii_strings)
            (normalizeDictionary
               (catalog None [word "none"; word_bnc "nine" 9; word_bnc "zero" 0;
                              word_bnc "five" 5]))
            (no_filters "bnc") 0)
  = ["five-3"; "nine-1"; "none-0"; "zero-2"].
Proof. vm_compute. reflexivity. Qed.

Example frq_sort_sample :
  map id (filteredWords (H:=ascii_strings)
            (normalizeDictionary
               (catalog None [word_frq "rare" 900; word "none"; word_frq "common" 3]))
            (no_filters "frq") 0)
  = ["common-2"; "rare-0"; "none-1"].
Proof. vm_compute. reflexivity. Qed.

(** The claim as the specification words it fails where a field is zero:
    such an entry carries the field, yet it is sorted as if it had none. *)
Lemma rank_zero_counterexample :
  let ws := normalizeDictionary
              (catalog None [word "none"; word_bnc "zero" 0; word_bnc "five" 5]) in
  let out := filteredWords (H:=ascii_strings) ws (no_filters "bnc") 0 in
  map id out = ["five-2"; "none-0"; "zero-1"] ∧
  ¬ (∀ (i j : nat) (a b : WordWithProgress),
       out !! i = Some a → out !! j = Some b → (i < j)%nat →
       (∀ x y, bnc a = Some x → bnc b = Some y → x ≤ y) ∧
       (bnc a = None → bnc b = None)).
Proof.
  intros ws out. split; [by vm_compute|].
  intros Hclaim.
  destruct (out !! 0%nat) as [a|] eqn:Ha; [|by vm_compute in Ha].
  destruct (out !! 2%nat) as [b|] eqn:Hb; [|by vm_compute in Hb].
  destruct (Hclaim 0%nat 2%nat a b Ha Hb) as [Hasc _]; [lia|].
  vm_compute in Ha, Hb. simplify_eq.
  specialize (Hasc 5 0 eq_refl eq_refl). lia.
Qed.

(* ===================================================================== *)
(** * Word catalog: the generated ids *)
(* ===================================================================== *)

Lemma chars_app (s1 s2 : string) :
  list_ascii_of_string (s1 +:+ s2)
  = list_ascii_of_string s1 ++ list_ascii_of_string s2.
Proof.
  induction s1 as [|c s1 IH]; [done|].
  change (c :: list_ascii_of_string (s1 +:+ s2)
          = c :: (list_ascii_of_string s1 ++ list_ascii_of_string s2)).
  by rewrite IH.
Qed.

(** The decimal numeral of an index has no dash in it. *)
Lemma pretty_N_go_no_dash (x : N) (s : string) :
  "-"%char ∉ list_ascii_of_string s →
  "-"%char ∉ list_ascii_of_string (pretty_N_go x s).
Proof.
  revert s. induction (N.lt_wf_0 x) as [x _ IH]. intros s Hs.
  destruct (decide (x = 0)%N) as [->|Hx]; [done|].
  rewrite pretty_N_go_step by lia. apply IH.
  - apply N.div_lt; lia.
  - cbn. rewrite not_elem_of_cons. split; [|done].
    unfold pretty_N_char. by repeat case_match.
Qed.

Lemma pretty_nat_no_dash (n : nat) :
  "-"%char ∉ list_ascii_of_string (pretty n).
Proof.
  unfold pretty, pretty_nat, pretty, pretty_N. case_decide.
  - cbn. rewrite not_elem_of_cons. split; [done|]. apply not_elem_of_nil.
  - apply pretty_N_go_no_dash. apply not_elem_of_nil.
Qed.

(** A list is split in one way only at the last occurrence of [c]. *)
Lemma split_at_last {A} (c : A) (l1 l2 d1 d2 : list A) :
  l1 ++ c :: d1 = l2 ++ c :: d2 → c ∉ d1 → c ∉ d2 → l1 = l2 ∧ d1 = d2.
Proof.
  revert l2. induction l1 as [|x l1 IH]; intros [|y l2] Heq Hd1 Hd2;
    simplify_eq/=.
  - done.
  - exfalso. apply Hd1, elem_of_app. right. left.
  - exfalso. apply Hd2, elem_of_app. right. left.
  - destruct (IH l2) as [-> ->]; done.
Qed.

Lemma list_ascii_of_string_inj (s1 s2 : string) :
  list_ascii_of_string s1 = list_ascii_of_string s2 → s1 = s2.
Proof.
  intros Heq. rewrite <-(string_of_list_ascii_of_string s1), Heq.
  apply string_of_list_ascii_of_string.
Qed.

(** The id determines the position (and the headword). *)
Lemma id_inj (v1 v2 : string) (i j : nat) :
  v1 +:+ "-" +:+ pretty i = v2 +:+ "-" +:+ pretty j → v1 = v2 ∧ i = j.
Proof.
  intros Heq. apply (f_equal list_ascii_of_string) in Heq.
  rewrite !chars_app in Heq. cbn in Heq.
  apply split_at_last in Heq as [Hv Hd]; try apply pretty_nat_no_dash.
  split; [by apply list_ascii_of_string_inj|].
  apply list_ascii_of_string_inj in Hd. by apply (inj pretty) in Hd.
Qed.

Lemma normalizeDictionary_lookup (file : DictionaryFile) (i : nat) :
  normalizeDictionary file !! i
  = (λ w, {| item := w; id := value w +:+ "-" +:+ pretty i;
             progress := defaultProgress |}) <$> default [] (wordList file) !! i.
Proof. unfold normalizeDictionary. apply list_lookup_imap. Qed.

Lemma normalizeDictionary_ids (file : DictionaryFile) :
  id <$> normalizeDictionary file
  = imap (λ idx v, v +:+ "-" +:+ pretty idx) (value <$> default [] (wordList file)).
Proof. unfold normalizeDictionary. by rewrite fmap_imap, imap_fmap. Qed.

Lemma normalizeDictionary_NoDup (file : DictionaryFile) :
  NoDup (id <$> normalizeDictionary file).
Proof.
  apply NoDup_alt. intros i j x Hi Hj.
  rewrite list_lookup_fmap, normalizeDictionary_lookup in Hi, Hj.
  destruct (default [] (wordList file) !! i) as [wi|]; [|done].
  destruct (default [] (wordList file) !! j) as [wj|]; [|done].
  cbn in Hi, Hj. injection Hi as <-. injection Hj as Hj.
  by destruct (id_inj _ _ _ _ Hj).
Qed.

(** C7. The normalised catalog has as many entries as the word list, in
    the same order; the generated ids are pairwise different; and the id
    sequence is determined by the sequence of headwords (duplicates and
    their order included), whatever else the file holds. *)
Theorem normalizeDictionary_catalog (file : DictionaryFile) :
  length (normalizeDictionary file) = length (default [] (wordList file)) ∧
  item <$> normalizeDictionary file = default [] (wordList file) ∧
  NoDup (id <$> normalizeDictionary file) ∧
  (∀ file' : DictionaryFile,
     value <$> default [] (wordList file') = value <$> default [] (wordList file) →
     id <$> normalizeDictionary file' = id <$> normalizeDictionary file).
Proof.
  split; [apply length_imap|].
  split.
  { unfold normalizeDictionary. rewrite fmap_imap.
    generalize (default [] (wordList file)). intros l.
    apply list_eq. intros i. rewrite list_lookup_imap. by destruct (l !! i). }
  split; [apply normalizeDictionary_NoDup|].
  intros file' Hv. by rewrite !normalizeDictionary_ids, Hv.
Qed.

(** Duplicate headwords get different ids. *)
Example normalize_duplicates :
  id <$> normalizeDictionary (catalog None [word "a"; word "b"; word "a"])
  = ["a-0"; "b-1"; "a-2"].
Proof. vm_compute. reflexivity. Qed.

(* ===================================================================== *)
(** * Quiz generation *)
(* ===================================================================== *)

Lemma filteri_from_all {A} (f : nat → A → bool) (n : nat) (l : list A) :
  (∀ i x, (n ≤ i)%nat → f i x = true) → filteri_from f n l = l.
Proof.
  revert n. induction l as [|x xs IH]; intros n Hf; cbn; [done|].
  rewrite Hf by lia. f_equal. apply IH. intros i y Hi. apply Hf. lia.
Qed.

Lemma filteri_from_delete {A} (n k : nat) (l : list A) :
  filteri_from (λ i _, bool_decide (i ≠ n + k)%nat) n l = delete k l.
Proof.
  revert n k. induction l as [|x xs IH]; intros n k; cbn; [done|].
  destruct k as [|k]; cbn.
  - rewrite bool_decide_eq_false_2 by lia.
    apply filteri_from_all. intros i y Hi. apply bool_decide_eq_true. lia.
  - rewrite bool_decide_eq_true_2 by lia. f_equal.
    replace (n + S k)%nat with (S n + k)%nat by lia. apply IH.
Qed.

(** Filtering out one index deletes the element at that index. *)
Lemma filteri_delete {A} (k : nat) (l : list A) :
  filteri (λ i _, bool_decide (i ≠ k)) l = delete k l.
Proof. apply (filteri_from_delete 0 k l). Qed.

(** [Math.floor(Math.random() * n)] is an index below [n]. *)
Lemma correctIdx_in_range (r : Q) (n : nat) :
  (0 <= r)%Q → (r < 1)%Q → (0 < n)%nat →
  (floor_index (r * inject_Z (Z.of_nat n)) < n)%nat.
Proof.
  intros Hr0 Hr1 Hn. unfold floor_index.
  set (x := (r * inject_Z (Z.of_nat n))%Q).
  assert (0 < inject_Z (Z.of_nat n))%Q as Hn'.
  { rewrite <-(Zlt_Qlt 0). lia. }
  assert (x < inject_Z (Z.of_nat n))%Q as Hx.
  { unfold x. rewrite <-(Qmult_1_l (inject_Z (Z.of_nat n))) at 2.
    by apply Qmult_lt_compat_r. }
  assert (Qfloor x < Z.of_nat n) as Hfl.
  { rewrite Zlt_Qlt. eapply Qle_lt_trans; [apply Qfloor_le|done]. }
  lia.
Qed.

Lemma unit_draws_tail (r : Rand) : unit_draws r → unit_draws (random r).2.
Proof. intros Hr n. apply (Hr (S n)). Qed.

(** What a generated quiz consists of: the index of the target in the
    base list, and as options the target and the first three of a
    rearrangement of the other entries, rearranged once more. *)
Lemma generateQuiz_spec (fw : list WordWithProgress) (s : App) (r : Rand) :
  quiz_base fw s ≠ [] → unit_draws r →
  ∃ (correctIdx : nat) (correct : WordWithProgress)
    (sorted opts : list WordWithProgress) (r' : Rand),
    generateQuiz fw s r
    = (setQuizAnswered None (setQuizOptions opts (setQuizIndex correctIdx s)), r') ∧
    quiz_base fw s !! correctIdx = Some correct ∧
    sorted ≡ₚ delete correctIdx (quiz_base fw s) ∧
    opts ≡ₚ take 3 sorted ++ [correct].
Proof.
  intros Hbase Hr. unfold generateQuiz. fold (quiz_base fw s).
  rewrite bool_decide_eq_false_2 by (by destruct (quiz_base fw s)).
  unfold bind at 1. cbn [random].
  set (correctIdx := floor_index _).
  assert (correctIdx < length (quiz_base fw s))%nat as Hidx.
  { apply correctIdx_in_range; [apply Hr..|].
    destruct (quiz_base fw s); [done|cbn; lia]. }
  destruct (lookup_lt_is_Some_2 _ _ Hidx) as [correct Hcorrect].
  rewrite Hcorrect. rewrite filteri_delete. unfold bind.
  pose proof (sortM_perm random_order (delete correctIdx (quiz_base fw s))
                (λ n, r (S n))) as Hsorted.
  destruct (sortM random_order (delete correctIdx (quiz_base fw s)) (λ n, r (S n)))
    as [sorted r1]. cbn in Hsorted.
  pose proof (sortM_perm random_order (take 3 sorted ++ [correct]) r1) as Hopts.
  destruct (sortM random_order (take 3 sorted ++ [correct]) r1) as [opts r2].
  cbn in Hopts.
  by exists correctIdx, correct, sorted, opts, r2.
Qed.

(** The options are the target and some other entries of the base list,
    each position used at most once. *)
Lemma quiz_options_from_base (base sorted opts : list WordWithProgress)
    (correctIdx : nat) (correct : WordWithProgress) :
  base !! correctIdx = Some correct →
  sorted ≡ₚ delete correctIdx base →
  opts ≡ₚ take 3 sorted ++ [correct] →
  opts ≡ₚ correct :: take 3 sorted ∧
  (correct :: take 3 sorted) `sublist_of` (correct :: sorted) ∧
  correct :: sorted ≡ₚ base ∧
  length opts = Nat.min 4 (length base).
Proof.
  intros Hc Hs Ho. split; [|split; [|split]].
  - rewrite Ho. by rewrite Permutation_app_comm.
  - constructor. apply sublist_take.
  - rewrite Hs. symmetry. by apply delete_Permutation.
  - rewrite Ho, length_app, length_take, Hs, length_delete by done.
    apply lookup_lt_Some in Hc. change (length [correct]) with 1%nat. lia.
Qed.

Lemma quiz_options_NoDup {B} (f : WordWithProgress → B)
    (base sorted opts : list WordWithProgress) (correct : WordWithProgress) :
  opts ≡ₚ correct :: take 3 sorted →
  (correct :: take 3 sorted) `sublist_of` (correct :: sorted) →
  correct :: sorted ≡ₚ base →
  NoDup (f <$> base) → NoDup (f <$> opts).
Proof.
  intros Ho Hsub Hb Hnd. rewrite Ho.
  apply (sublist_NoDup _ (f <$> (correct :: sorted))).
  - by rewrite Hb.
  - by apply fmap_sublist.
Qed.

Lemma length_filter_Permutation {A} (P : A → bool) (l1 l2 : list A) :
  l1 ≡ₚ l2 → length (List.filter P l1) = length (List.filter P l2).
Proof.
  induction 1 as [|x l1 l2 _ IH|x y l|l1 l2 l3 _ IH1 _ IH2]; cbn.
  - done.
  - destruct (P x); cbn; by rewrite IH.
  - by destruct (P x), (P y).
  - by rewrite IH1.
Qed.

Lemma filter_none {A} (P : A → bool) (l : list A) :
  (∀ x, x ∈ l → P x = false) → List.filter P l = [].
Proof.
  induction l as [|x l IH]; intros Hl; cbn; [done|].
  rewrite Hl by left. apply IH. intros y Hy. apply Hl. by right.
Qed.

(** With pairwise different headwords only the target passes the check. *)
Lemma one_correct_option (correct : WordWithProgress)
    (picked opts : list WordWithProgress) :
  opts ≡ₚ correct :: picked →
  NoDup (values (correct :: picked)) →
  length (List.filter (is_correct_option correct) opts) = 1%nat.
Proof.
  intros Ho Hnd. rewrite (length_filter_Permutation _ _ _ Ho). cbn.
  unfold is_correct_option at 1. rewrite String.eqb_refl. cbn.
  rewrite filter_none; [done|].
  intros o Ho'. unfold is_correct_option. apply String.eqb_neq. intros Hv.
  unfold values in Hnd. cbn in Hnd. apply NoDup_cons in Hnd as [Hnotin _].
  apply Hnotin. rewrite <-Hv. apply (list_elem_of_fmap_2 (λ w : WordWithProgress, value w)), Ho'.
Qed.

(** The quiz generated over a non-empty active set. *)
Lemma generateQuiz_active_set (fw : list WordWithProgress) (s : App) (r : Rand) :
  fw ≠ [] → unit_draws r →
  ∃ (correctIdx : nat) (correct : WordWithProgress)
    (sorted opts : list WordWithProgress) (r' : Rand),
    generateQuiz fw s r
    = (setQuizAnswered None (setQuizOptions opts (setQuizIndex correctIdx s)), r') ∧
    fw !! correctIdx = Some correct ∧
    opts ≡ₚ correct :: take 3 sorted ∧
    (correct :: take 3 sorted) `sublist_of` (correct :: sorted) ∧
    correct :: sorted ≡ₚ fw ∧
    length opts = Nat.min 4 (length fw).
Proof.
  intros Hfw Hr.
  assert (quiz_base fw s = fw) as Hbase.
  { unfold quiz_base. rewrite bool_decide_eq_true_2; [done|]. by destruct fw. }
  destruct (generateQuiz_spec fw s r)
    as (i & correct & sorted & opts & r' & Hgen & Hc & Hs & Ho).
  { by rewrite Hbase. }
  { done. }
  rewrite Hbase in Hc, Hs.
  destruct (quiz_options_from_base fw sorted opts i correct Hc Hs Ho)
    as (Hperm & Hsub & Hall & Hlen).
  by exists i, correct, sorted, opts, r'.
Qed.

(** C2, as the code has it. For a non-empty active set of size [n] the quiz
    has exactly [min 4 n] options, all entries of the active set and the
    target among them; the options are pairwise different entries (by id)
    when the ids of the active set are; the target passes the correctness
    check; and when the headwords of the active set are pairwise different,
    so are those of the options, and exactly one option passes the check. *)
Theorem generateQuiz_options (fw : list WordWithProgress) (s : App) (r : Rand) :
  fw ≠ [] → unit_draws r →
  let s' := (generateQuiz fw s r).1 in
  ∃ target : WordWithProgress,
    fw !! quizIndex s' = Some target ∧
    quizAnswered s' = None ∧
    length (quizOptions s') = Nat.min 4 (length fw) ∧
    target ∈ quizOptions s' ∧
    (∀ o, o ∈ quizOptions s' → o ∈ fw) ∧
    is_correct_option target target = true ∧
    (NoDup (id <$> fw) → NoDup (id <$> quizOptions s')) ∧
    (NoDup (values fw) →
       NoDup (values (quizOptions s')) ∧
       length (List.filter (is_correct_option target) (quizOptions s')) = 1%nat).
Proof.
  intros Hfw Hr s'.
  destruct (generateQuiz_active_set fw s r Hfw Hr)
    as (i & correct & sorted & opts & r' & Hgen & Hc & Hperm & Hsub & Hall & Hlen).
  subst s'. rewrite Hgen. cbn.
  exists correct. split; [done|]. split; [done|]. split; [done|].
  split; [rewrite Hperm; left|].
  split.
  { intros o Hin. rewrite <-Hall. rewrite Hperm in Hin.
    eapply elem_of_sublist; [exact Hin|exact Hsub]. }
  split; [apply String.eqb_refl|].
  split; [by apply (quiz_options_NoDup _ fw sorted opts correct)|].
  intros Hnd. split.
  - by apply (quiz_options_NoDup _ fw sorted opts correct).
  - apply (one_correct_option correct (take 3 sorted)); [done|].
    apply (sublist_NoDup _ (values (correct :: sorted))).
    + unfold values. by rewrite Hall.
    + by apply fmap_sublist.
Qed.

Lemma constant_draws_unit (q : Q) :
  (0 <= q)%Q → (q < 1)%Q → unit_draws (constant_draws q).
Proof. intros H0 H1 n. by split. Qed.

(** Discharges [unit_draws] for a constant stream of a given rational. *)
Ltac constant_unit_draws :=
  apply constant_draws_unit; [vm_compute; discriminate|reflexivity].

Lemma generateQuiz_options_witness :
  let fw := normalizeDictionary (catalog None ten_words) in
  let s := initialApp (catalog None ten_words) in
  let r := constant_draws (1 # 3) in
  fw ≠ [] ∧ unit_draws r ∧
  ∃ target : WordWithProgress,
    fw !! quizIndex (generateQuiz fw s r).1 = Some target ∧
    quizAnswered (generateQuiz fw s r).1 = None ∧
    length (quizOptions (generateQuiz fw s r).1) = Nat.min 4 (length fw) ∧
    target ∈ quizOptions (generateQuiz fw s r).1 ∧
    (∀ o, o ∈ quizOptions (generateQuiz fw s r).1 → o ∈ fw) ∧
    is_correct_option target target = true ∧
    (NoDup (id <$> fw) → NoDup (id <$> quizOptions (generateQuiz fw s r).1)) ∧
    (NoDup (values fw) →
       NoDup (values (quizOptions (generateQuiz fw s r).1)) ∧
       length (List.filter (is_correct_option target)
                 (quizOptions (generateQuiz fw s r).1)) = 1%nat).
Proof.
  intros fw s r.
  assert (fw ≠ []) as Hfw by (vm_compute; discriminate).
  assert (unit_draws r) as Hr by constant_unit_draws.
  split; [exact Hfw|]. split; [exact Hr|].
  exact (generateQuiz_options fw s r Hfw Hr).
Defined.

(** The two sizes the specification names: ten words give four options, two
    words give two. *)
Example quiz_of_ten :
  let fw := normalizeDictionary (catalog None ten_words) in
  let s' := (generateQuiz fw (initialApp (catalog None ten_words))
               (constant_draws (1 # 3))).1 in
  quizIndex s' = 3%nat ∧ id <$> quizOptions s' = ["ant-0"; "bee-1"; "cat-2"; "dog-3"].
Proof. vm_compute. split; reflexivity. Qed.

Example quiz_of_two :
  let fw := normalizeDictionary (catalog None [word "ant"; word "bee"]) in
  let s' := (generateQuiz fw (initialApp (catalog None [word "ant"; word "bee"]))
               (constant_draws (2 # 3))).1 in
  quizIndex s' = 1%nat ∧ id <$> quizOptions s' = ["bee-1"; "ant-0"].
Proof. vm_compute. split; reflexivity. Qed.

(** The claim as the specification words it fails on an active set with a
    repeated headword: both entries are options, their values coincide, and
    both pass the correctness check. *)
Lemma quiz_duplicate_counterexample :
  let fw := normalizeDictionary (catalog None [word "a"; word "a"]) in
  let s' := (generateQuiz fw (initialApp (catalog None [word "a"; word "a"]))
               (constant_draws 0)).1 in
  fw ≠ [] ∧ unit_draws (constant_draws 0) ∧
  values (quizOptions s') = ["a"; "a"] ∧
  ¬ NoDup (values (quizOptions s')) ∧
  ∃ target : WordWithProgress,
    fw !! quizIndex s' = Some target ∧
    length (List.filter (is_correct_option target) (quizOptions s')) = 2%nat.
Proof.
  intros fw s'.
  split; [vm_compute; discriminate|].
  split; [constant_unit_draws|].
  split; [vm_compute; reflexivity|].
  split.
  - assert (values (quizOptions s') = ["a"; "a"]) as -> by (vm_compute; reflexivity).
    intros Hnd. apply NoDup_cons in Hnd as [Hnotin _]. apply Hnotin. left.
  - exists (mkWord (word "a") "a-0" defaultProgress).
    split; vm_compute; reflexivity.
Qed.

(* ===================================================================== *)
(** * Quiz: answering *)
(* ===================================================================== *)

(** The first answer to a question. *)
Lemma onChoose_first (fw : list WordWithProgress) (idx : nat) (tReviewed tDue : N)
    (s : App) :
  quizOptions s ≠ [] → quizAnswered s = None →
  onChoose fw idx tReviewed tDue s
  = match (fw !! quizIndex s : option WordWithProgress),
          (quizOptions s !! idx : option WordWithProgress) with
    | Some correct, Some chosen =>
        updateProgress (value correct)
          (onChoose_updater (value chosen =? value correct)%string tReviewed tDue)
          (setQuizAnswered (Some idx) s)
    | _, _ => setQuizAnswered (Some idx) s
    end.
Proof.
  intros Hopts Hans. unfold onChoose.
  rewrite bool_decide_eq_false_2 by (by destruct (quizOptions s)).
  rewrite bool_decide_eq_false_2 by (by rewrite Hans; intros []).
  done.
Qed.

(** Once answered, further choices are ignored. *)
Lemma onChoose_answered (fw : list WordWithProgress) (idx : nat) (tReviewed tDue : N)
    (s : App) :
  quizAnswered s ≠ None → onChoose fw idx tReviewed tDue s = s.
Proof.
  intros Hans. unfold onChoose. case_bool_decide; [done|].
  by rewrite bool_decide_eq_true_2.
Qed.

(** A correct choice is graded like "good", a wrong one like "again". *)
Lemma onChoose_updater_good (tReviewed tDue : N) (p : ProgressData) :
  onChoose_updater true tReviewed tDue p = gradeFlash_updater good tReviewed tDue p.
Proof. reflexivity. Qed.

Lemma onChoose_updater_again (tReviewed tDue : N) (p : ProgressData) :
  onChoose_updater false tReviewed tDue p = gradeFlash_updater again tReviewed tDue p.
Proof.
  unfold onChoose_updater, gradeFlash_updater. cbn. by rewrite Z.add_0_r.
Qed.





(** A wrong and a right answer on the quiz of ten words (the target is
    "dog"). *)
Example quiz_wrong_answer :
  let fw := normalizeDictionary (catalog None ten_words) in
  let s1 := (generateQuiz fw (initialApp (catalog None ten_words))
               (constant_draws (1 # 3))).1 in
  progressStore (onChoose fw 2 5000 5001 s1) !! "dog"
  = Some {| known := false; favorite := false; seenCount := 1; correctCount := 0;
            streak := 0; lastReviewed := Some 5000%N; nextDue := Some 15001%N |}.
Proof. vm_compute. reflexivity. Qed.

Example quiz_right_answer :
  let fw := normalizeDictionary (catalog None ten_words) in
  let s1 := (generateQuiz fw (initialApp (catalog None ten_words))
               (constant_draws (1 # 3))).1 in
  progressStore (onChoose fw 3 5000 5001 s1) !! "dog"
  = Some {| known := false; favorite := false; seenCount := 1; correctCount := 1;
            streak := 1; lastReviewed := Some 5000%N; nextDue := Some 605001%N |}.
Proof. vm_compute. reflexivity. Qed.





(* ===================================================================== *)
(** * Further properties of the selection *)
(* ===================================================================== *)

Lemma filter_filter_andb {A} (P Q : A → bool) (l : list A) :
  List.filter (λ x, P x && Q x) l = List.filter Q (List.filter P l).
Proof.
  induction l as [|x l IH]; cbn; [done|].
  destruct (P x); cbn; [|done]. destruct (Q x); by rewrite IH.
Qed.

Lemma filter_filter_comm {A} (P Q : A → bool) (l : list A) :
  List.filter P (List.filter Q l) = List.filter Q (List.filter P l).
Proof.
  induction l as [|x l IH]; cbn; [done|].
  destruct (P x) eqn:HP, (Q x) eqn:HQ; cbn; rewrite ?HP, ?HQ, ?IH; done.
Qed.

Lemma StronglySorted_filter {A} (R : relation A) (P : A → bool) (l : list A) :
  StronglySorted R l → StronglySorted R (List.filter P l).
Proof.
  induction 1 as [|x l Hl IH Hx]; cbn; [constructor|].
  destruct (P x); [|done]. constructor; [done|].
  rewrite Forall_forall in Hx. apply Forall_forall. intros y Hy.
  apply Hx. apply list_elem_of_In, filter_In in Hy as [Hy _].
  by apply list_elem_of_In.
Qed.

(** Filtering a sorted list gives the list that sorting the filtered input
    gives: a filter never reorders. *)
Lemma filter_sort_comm {A} (cmp : A → A → comparison) (P : A → bool) (l : list A) :
  consistent cmp →
  List.filter P (sort cmp l) = sort cmp (List.filter P l).
Proof.
  intros Hc. apply (sort_unique cmp Hc).
  - apply StronglySorted_Sorted, StronglySorted_filter.
    by apply sort_StronglySorted.
  - intros x. rewrite filter_filter_comm, (sort_stable cmp Hc).
    apply filter_filter_comm.
Qed.

Section MoreSelection.
Context `{JSString}.

(** X1. The selection returns every catalog entry that passes the filters
    exactly once and nothing else: its output is a rearrangement of the
    filtered word list, so it is never longer than the catalog and entries
    with different ids stay different. *)
Theorem filteredWords_rearranges (ws : list WordWithProgress) (f : Filters)
    (nowTs : N) :
  filteredWords ws f nowTs ≡ₚ List.filter (keep f nowTs) ws ∧
  (length (filteredWords ws f nowTs) ≤ length ws)%nat ∧
  (NoDup (id <$> ws) → NoDup (id <$> filteredWords ws f nowTs)) ∧
  ((∀ w, w ∈ ws → keep f nowTs w = true) → filteredWords ws f nowTs ≡ₚ ws).
Proof.
  assert (filteredWords ws f nowTs ≡ₚ List.filter (keep f nowTs) ws) as Hp
    by apply sort_perm.
  split; [done|]. split; [|split].
  - rewrite Hp. apply filter_length_le.
  - intros Hnd. rewrite Hp.
    apply (sublist_NoDup _ (id <$> ws)); [done|].
    apply fmap_sublist. clear. induction ws as [|w ws IH]; cbn; [done|].
    destruct (keep f nowTs w); by constructor.
  - intros Hall. rewrite Hp, filter_keep_all; [done|].
    apply Forall_forall. intros w Hw. by apply Hall.
Qed.

Lemma keep_onlyFavorites (f : Filters) (nowTs : N) (w : WordWithProgress) :
  keep (setOnlyFavorites true f) nowTs w
  = keep (setOnlyFavorites false f) nowTs w && favorite (progress w).
Proof.
  unfold keep, matchFav, matchDue. cbn.
  destruct (matchQuery _ w), (matchTag _ w), (favorite (progress w)),
    (negb (onlyDue f) || due_in_filter (progress w) nowTs); done.
Qed.

(** X2. Switching on the due-only or the favourites-only filter removes
    entries from the selection without reordering the others: the narrower
    selection is the wider one with the entries that are not due (not
    favourites) left out. *)
Theorem narrower_filter_keeps_order (ws : list WordWithProgress) (f : Filters)
    (nowTs : N) :
  consistent localeCompare →
  filteredWords ws (setOnlyDue true f) nowTs
  = List.filter (λ w, due_in_filter (progress w) nowTs)
      (filteredWords ws (setOnlyDue false f) nowTs) ∧
  filteredWords ws (setOnlyFavorites true f) nowTs
  = List.filter (λ w, favorite (progress w))
      (filteredWords ws (setOnlyFavorites false f) nowTs).
Proof.
  intros Hloc. unfold filteredWords. split.
  - rewrite filter_sort_comm by (by apply compareWords_consistent).
    cbn [sortBy setOnlyDue]. f_equal.
    rewrite <-filter_filter_andb. apply filter_ext. intros w.
    apply keep_onlyDue.
  - rewrite filter_sort_comm by (by apply compareWords_consistent).
    cbn [sortBy setOnlyFavorites]. f_equal.
    rewrite <-filter_filter_andb. apply filter_ext. intros w.
    apply keep_onlyFavorites.
Qed.

Lemma compareWords_collins (a b : WordWithProgress) :
  compareWords "collins" a b
  = by_key (λ w : WordWithProgress, or_num (collins w) (Num 0)) b a.
Proof. reflexivity. Qed.

Lemma compareWords_progress (a b : WordWithProgress) :
  compareWords "progress" a b
  = by_key (λ w : WordWithProgress, or_num (Some (streak (progress w))) (Num 0)) b a.
Proof. reflexivity. Qed.

Lemma or_num_zero (o : option Z) : or_num o (Num 0) = Num (default 0 o).
Proof.
  destruct o as [z|]; cbn; [|done].
  destruct (z =? 0) eqn:E; [|done]. by apply Z.eqb_eq in E as ->.
Qed.

(** X3. Under the key "collins" the output is in descending order of the
    star rating, an entry without rating counting as 0: whenever [a] stands
    before [b], the rating of [b] is not greater than that of [a]. *)
Theorem collins_sort_order (ws : list WordWithProgress) (f : Filters)
    (nowTs : N) (i j : nat) (a b : WordWithProgress) :
  sortBy f = "collins" →
  filteredWords ws f nowTs !! i = Some a →
  filteredWords ws f nowTs !! j = Some b →
  (i < j)%nat →
  default 0 (collins b) ≤ default 0 (collins a).
Proof.
  intros Hkey Hi Hj Hij. unfold filteredWords in Hi, Hj. rewrite Hkey in *.
  assert (consistent (compareWords "collins")) as Hc.
  { apply (flip_consistent
      (by_key (λ w : WordWithProgress, or_num (collins w) (Num 0)))).
    apply by_key_consistent. intros w. by apply or_num_not_NaN. }
  pose proof (StronglySorted_lookup _ _ i j a b
                (sort_StronglySorted _ Hc _) Hi Hj Hij) as Hab.
  unfold not_after in Hab. rewrite compareWords_collins in Hab.
  unfold by_key in Hab. rewrite !or_num_zero, sortCompare_sub in Hab.
  by apply Z.compare_le_iff.
Qed.

(** X4. Under the key "progress" the output is in descending order of the
    streak. *)
Theorem streak_sort_order (ws : list WordWithProgress) (f : Filters)
    (nowTs : N) (i j : nat) (a b : WordWithProgress) :
  sortBy f = "progress" →
  filteredWords ws f nowTs !! i = Some a →
  filteredWords ws f nowTs !! j = Some b →
  (i < j)%nat →
  streak (progress b) ≤ streak (progress a).
Proof.
  intros Hkey Hi Hj Hij. unfold filteredWords in Hi, Hj. rewrite Hkey in *.
  assert (consistent (compareWords "progress")) as Hc.
  { apply (flip_consistent
      (by_key (λ w : WordWithProgress,
                 or_num (Some (streak (progress w))) (Num 0)))).
    apply by_key_consistent. intros w. by apply or_num_not_NaN. }
  pose proof (StronglySorted_lookup _ _ i j a b
                (sort_StronglySorted _ Hc _) Hi Hj Hij) as Hab.
  unfold not_after in Hab. rewrite compareWords_progress in Hab.
  unfold by_key in Hab. rewrite !or_num_zero, sortCompare_sub in Hab.
  by apply Z.compare_le_iff.
Qed.

End MoreSelection.

Lemma narrower_filter_keeps_order_witness :
  consistent (@localeCompare ascii_strings) ∧
  filteredWords (H:=ascii_strings) sample_entries
    (setOnlyDue true (no_filters "progress")) 30000
  = List.filter (λ w, due_in_filter (progress w) 30000)
      (filteredWords (H:=ascii_strings) sample_entries
         (setOnlyDue false (no_filters "progress")) 30000).
Proof.
  split; [exact string_compare_consistent|].
  apply (@narrower_filter_keeps_order ascii_strings sample_entries
           (no_filters "progress") 30000%N string_compare_consistent).
Defined.

Example narrower_filter_sample :
  id <$> filteredWords (H:=ascii_strings) sample_entries
           (no_filters "progress") 30000 = ["bee-1"; "cat-2"; "ant-0"] ∧
  id <$> filteredWords (H:=ascii_strings) sample_entries
           (setOnlyDue true (no_filters "progress")) 30000 = ["bee-1"; "cat-2"] ∧
  id <$> filteredWords (H:=ascii_strings) sample_entries
           (setOnlyFavorites true (no_filters "progress")) 30000
  = ["cat-2"; "ant-0"].
Proof. vm_compute. repeat split; reflexivity. Qed.

Lemma collins_sort_order_witness :
  let ws := normalizeDictionary
              (catalog None [word_collins "two" 2; word "none"; word_collins "five" 5]) in
  let five := mkWord (word_collins "five" 5) "five-2" defaultProgress in
  let two := mkWord (word_collins "two" 2) "two-0" defaultProgress in
  filteredWords (H:=ascii_strings) ws (no_filters "collins") 0 !! 0%nat = Some five ∧
  filteredWords (H:=ascii_strings) ws (no_filters "collins") 0 !! 1%nat = Some two ∧
  default 0 (collins two) ≤ default 0 (collins five).
Proof.
  intros ws five two.
  split; [vm_compute; reflexivity|].
  split; [vm_compute; reflexivity|].
  apply (@collins_sort_order ascii_strings ws (no_filters "collins") 0%N
           0%nat 1%nat five two).
  - reflexivity.
  - vm_compute. reflexivity.
  - vm_compute. reflexivity.
  - lia.
Defined.

Lemma streak_sort_order_witness :
  let bee := mkWord (word "bee") "bee-1" (reviewed 3 false 20000) in
  let cat := mkWord (word "cat") "cat-2" (reviewed 2 true 20000) in
  filteredWords (H:=ascii_strings) sample_entries (no_filters "progress") 0 !! 0%nat
  = Some bee ∧
  filteredWords (H:=ascii_strings) sample_entries (no_filters "progress") 0 !! 1%nat
  = Some cat ∧
  streak (progress cat) ≤ streak (progress bee).
Proof.
  intros bee cat.
  split; [vm_compute; reflexivity|].
  split; [vm_compute; reflexivity|].
  apply (@streak_sort_order ascii_strings sample_entries (no_filters "progress") 0%N
           0%nat 1%nat bee cat).
  - reflexivity.
  - vm_compute. reflexivity.
  - vm_compute. reflexivity.
  - lia.
Defined.

(* ===================================================================== *)
(** * Statistics *)
(* ===================================================================== *)

Lemma stats_from (ws : list WordWithProgress) (nowTs : N) (acc : Stats) :
  let r := fold_left (stats_step nowTs) ws acc in
  total r = total acc ∧
  st_known r
  = (st_known acc + length (List.filter (λ w, known (progress w)) ws))%nat ∧
  studied r
  = (studied acc
     + length (List.filter (λ w, (0 <? seenCount (progress w))%Z) ws))%nat.
Proof.
  revert acc. induction ws as [|w ws IH]; intros acc; cbn; [lia|].
  destruct (IH (stats_step nowTs acc w)) as (Ht & Hk & Hs).
  rewrite Ht, Hk, Hs. cbn.
  destruct (known (progress w)), (0 <? seenCount (progress w)); cbn; lia.
Qed.

(** X5. The statistics are taken over the whole word list: [total] is its
    length, [known] the number of words flagged as known, [studied] the
    number of words seen at least once; none of the three counts, nor the
    due count, exceeds [total]. *)
Theorem stats_counts (ws : list WordWithProgress) (nowTs : N) :
  total (stats ws nowTs) = length ws ∧
  st_known (stats ws nowTs)
  = length (List.filter (λ w, known (progress w)) ws) ∧
  studied (stats ws nowTs)
  = length (List.filter (λ w, 0 <? seenCount (progress w)) ws) ∧
  (st_known (stats ws nowTs) ≤ total (stats ws nowTs))%nat ∧
  (studied (stats ws nowTs) ≤ total (stats ws nowTs))%nat ∧
  (due (stats ws nowTs) ≤ total (stats ws nowTs))%nat.
Proof.
  unfold stats.
  destruct (stats_from ws nowTs
              {| total := length ws; st_known := 0; studied := 0; due := 0 |})
    as (Ht & Hk & Hs).
  rewrite stats_due_from, Ht, Hk, Hs. cbn.
  repeat split; apply filter_length_le.
Qed.

(* ===================================================================== *)
(** * The tag menu *)
(* ===================================================================== *)

Lemma set_add_NoDup (l acc : list string) :
  NoDup acc → NoDup (fold_left set_add l acc).
Proof.
  revert acc. induction l as [|t l IH]; intros acc Hacc; cbn; [done|].
  apply IH. unfold set_add. case_bool_decide; [done|].
  apply NoDup_app. split; [done|]. split.
  - intros x Hx Hx'. apply list_elem_of_singleton in Hx' as ->. done.
  - apply NoDup_singleton.
Qed.

Lemma elem_of_set_add (l acc : list string) (t : string) :
  t ∈ fold_left set_add l acc ↔ t ∈ acc ∨ t ∈ l.
Proof.
  revert acc. induction l as [|x l IH]; intros acc; cbn.
  { split; [by left|]. intros [?|Hn]; [done|]. by apply elem_of_nil in Hn. }
  rewrite IH, elem_of_cons. unfold set_add. case_bool_decide as Hx.
  - split; [tauto|]. intros [?|[->|?]]; tauto.
  - rewrite elem_of_app, list_elem_of_singleton. tauto.
Qed.

Lemma StronglySorted_strict (l : list string) :
  NoDup l → StronglySorted (not_after String.compare) l →
  StronglySorted (λ a b, String.compare a b = Lt) l.
Proof.
  intros Hnd Hs. induction Hs as [|x l Hl IH Hx]; [constructor|].
  apply NoDup_cons in Hnd as [Hx' Hnd]. constructor; [by apply IH|].
  rewrite Forall_forall in Hx. apply Forall_forall. intros y Hy.
  specialize (Hx y Hy). unfold not_after in Hx.
  destruct (String.compare x y) eqn:E; try done.
  apply String.compare_eq_iff in E as ->. done.
Qed.

Section TagFacts.
Context `{JSString}.

Lemma elem_of_word_tags (w : WordWithProgress) (t : string) :
  t ∈ word_tags w ↔ t ≠ "" ∧ t ∈ split_ws (or_ostr (tag w) "").
Proof.
  unfold word_tags. rewrite list_elem_of_In, filter_In, <-list_elem_of_In.
  rewrite negb_true_iff, String.eqb_neq. tauto.
Qed.

Lemma tag_set_NoDup (ws : list WordWithProgress) (acc : list string) :
  NoDup acc →
  NoDup (fold_left (λ set w, fold_left set_add (word_tags w) set) ws acc).
Proof.
  revert acc. induction ws as [|w ws IH]; intros acc Hacc; cbn; [done|].
  by apply IH, set_add_NoDup.
Qed.

Lemma elem_of_tag_set (ws : list WordWithProgress) (acc : list string) (t : string) :
  t ∈ fold_left (λ set w, fold_left set_add (word_tags w) set) ws acc
  ↔ t ∈ acc ∨ ∃ w, w ∈ ws ∧ t ∈ word_tags w.
Proof.
  revert acc. induction ws as [|w ws IH]; intros acc; cbn.
  { split; [by left|]. intros [?|(w & Hw & _)]; [done|]. by apply elem_of_nil in Hw. }
  rewrite IH, elem_of_set_add. split.
  - intros [[?|?]|(w' & Hw' & Ht)]; [by left|right; exists w|right; exists w'].
    + split; [left|done].
    + split; [by right|done].
  - intros [?|(w' & Hw' & Ht)]; [by left; left|].
    apply elem_of_cons in Hw' as [->|Hw']; [by left; right|].
    right. by exists w'.
Qed.

(** X6. The tag menu lists every non-empty tag token of every word once,
    in ascending order of the code units, and nothing else; so each tag it
    offers is carried by at least one word, which then passes the tag
    filter. *)
Theorem tags_menu (ws : list WordWithProgress) :
  NoDup (tags ws) ∧
  StronglySorted (λ a b, String.compare a b = Lt) (tags ws) ∧
  (∀ t, t ∈ tags ws ↔
        t ≠ "" ∧ ∃ w : WordWithProgress,
                   w ∈ ws ∧ t ∈ split_ws (or_ostr (tag w) "")) ∧
  (∀ t f, t ∈ tags ws → tagFilter f = t →
          ∃ w : WordWithProgress, w ∈ ws ∧ matchTag f w = true).
Proof.
  assert (NoDup (tags ws)) as Hnd.
  { unfold tags. rewrite sort_perm. apply tag_set_NoDup, NoDup_nil_2. }
  assert (∀ t, t ∈ tags ws ↔
            t ≠ "" ∧ ∃ w : WordWithProgress,
                       w ∈ ws ∧ t ∈ split_ws (or_ostr (tag w) "")) as Hin.
  { intros t. unfold tags. rewrite elem_of_sort, elem_of_tag_set. split.
    - intros [Hn|(w & Hw & Ht)]; [by apply elem_of_nil in Hn|].
      apply elem_of_word_tags in Ht as [Hne Ht]. split; [done|]. by exists w.
    - intros (Hne & w & Hw & Ht). right. exists w. split; [done|].
      by apply elem_of_word_tags. }
  split; [done|]. split; [|split; [done|]].
  - apply StronglySorted_strict; [done|]. unfold tags.
    apply sort_StronglySorted, string_compare_consistent.
  - intros t f Ht Hf. apply Hin in Ht as (_ & w & Hw & Ht).
    exists w. split; [done|]. unfold matchTag. rewrite Hf.
    rewrite (bool_decide_eq_true_2 _ Ht). apply orb_true_r.
Qed.

End TagFacts.

Example tags_sample :
  tags (H:=ascii_strings)
    (normalizeDictionary
       (catalog None [word_tagged "run" "verb  cet4"; word "of";
                      word_tagged "cat" "noun cet4 "]))
  = ["cet4"; "noun"; "verb"].
Proof. vm_compute. reflexivity. Qed.

(* ===================================================================== *)
(** * The merged view of words and progress *)
(* ===================================================================== *)


Lemma elem_of_mergeProgress (store : gmap string ProgressData)
    (ws : list WordWithProgress) (x : WordWithProgress) :
  x ∈ mergeProgress store ws ↔
  ∃ w, w ∈ ws ∧
       x = {| item := item w; id := id w;
              progress := currentOrDefault store (value w) |}.
Proof.
  unfold mergeProgress. rewrite (list_elem_of_fmap _ ws x). split.
  - intros (w & -> & Hw). by exists w.
  - intros (w & Hw & ->). by exists w.
Qed.

Lemma mergeProgress_ids (store : gmap string ProgressData)
    (ws : list WordWithProgress) :
  id <$> mergeProgress store ws = id <$> ws.
Proof. unfold mergeProgress. by rewrite <-list_fmap_compose. Qed.

(** X7. Merging the store into the word list keeps the entries, their
    order and their ids, and gives each entry the stored progress of its
    headword, or the default state when nothing is stored; so entries with
    the same headword show the same progress, and merging again changes
    nothing. *)
Theorem mergeProgress_view (store : gmap string ProgressData)
    (ws : list WordWithProgress) :
  length (mergeProgress store ws) = length ws ∧
  id <$> mergeProgress store ws = id <$> ws ∧
  item <$> mergeProgress store ws = item <$> ws ∧
  (∀ x : WordWithProgress, x ∈ mergeProgress store ws →
     progress x = currentOrDefault store (value x)) ∧
  (∀ a b : WordWithProgress,
     a ∈ mergeProgress store ws → b ∈ mergeProgress store ws →
     value a = value b → progress a = progress b) ∧
  mergeProgress store (mergeProgress store ws) = mergeProgress store ws.
Proof.
  assert (∀ x : WordWithProgress, x ∈ mergeProgress store ws →
            progress x = currentOrDefault store (value x)) as Hview.
  { intros x Hx. by apply elem_of_mergeProgress in Hx as (w & _ & ->). }
  split; [apply length_map|].
  split; [unfold mergeProgress; by rewrite <-list_fmap_compose|].
  split; [unfold mergeProgress; by rewrite <-list_fmap_compose|].
  split; [done|]. split.
  - intros a b Ha Hb Hv. by rewrite (Hview a Ha), (Hview b Hb), Hv.
  - unfold mergeProgress at 1 2. rewrite <-list_fmap_compose. done.
Qed.

Lemma currentOrDefault_update (s : App) (w k : string)
    (u : ProgressData → ProgressData) :
  currentOrDefault (progressStore (updateProgress w u s)) k
  = if decide (k = w) then u (currentOrDefault (progressStore s) w)
    else currentOrDefault (progressStore s) k.
Proof.
  rewrite updateProgress_store. unfold currentOrDefault at 1.
  destruct (decide (k = w)) as [->|Hk].
  - by rewrite lookup_insert_eq.
  - by rewrite lookup_insert_ne.
Qed.



(* ===================================================================== *)
(** * Persistence: keys, the storage hook, import *)
(* ===================================================================== *)

Lemma or_ostr_nonempty (o : option string) (d : string) :
  d ≠ "" → or_ostr o d ≠ "".
Proof.
  intros Hd. destruct o as [n|]; cbn; [|done].
  unfold or_str. by destruct (decide (n = "")).
Qed.

Lemma activeKey_eq (s : App) :
  activeKey s = "word-progress-" +:+ or_ostr (dict_name (dict s)) "Default".
Proof.
  unfold activeKey, getProgressKey. rewrite or_str_nonempty; [done|].
  by apply or_ostr_nonempty.
Qed.


Example unnamed_shares_with_Default :
  activeKey (initialApp (catalog None [])) = activeKey (initialApp (catalog (Some "Default") [])) ∧
  activeKey (initialApp (catalog (Some "cet4") [])) = "word-progress-cet4".
Proof. vm_compute. split; reflexivity. Qed.


(** Under another catalog name the progress stored for "Default" is
    replaced. *)
Example storage_hook_overwrites_Default :
  let s0 := initialApp (catalog (Some "cet4") [word "cat"]) in
  let saved := <["dog" := reviewed 2 false 700000]> (∅ : gmap string ProgressData) in
  let s1 := localStorage_setItem "word-progress-Default" saved s0 in
  let s2 := useLocalStorage_effect
              (updateProgress "cat" (gradeFlash_updater good 5 6) s1) in
  localStorage s1 !! "word-progress-Default" = Some saved ∧
  localStorage s2 !! "word-progress-Default" = Some (progressStore s2) ∧
  progressStore s2 !! "dog" = None.
Proof. vm_compute. repeat split; reflexivity. Qed.

(** X11. An import without a word list is rejected and changes nothing.
    An accepted import replaces the catalog by the normalised word list
    (every entry in the default state, ids pairwise different) and loads
    the progress stored under the import key (nothing stored: the empty
    mapping).  The handler itself writes nothing to the storage; the effect
    of the storage hook that follows the change of the store writes the
    loaded store under "word-progress-Default" and under no other key.  For
    a named catalog the state is in step with the storage, before and
    after that effect. *)
Theorem onFileChange_import (json : DictionaryFile) (s : App) :
  (wordList json = None → onFileChange json s = s) ∧
  (∀ l, wordList json = Some l →
     let s1 := onFileChange json s in
     let s2 := useLocalStorage_effect s1 in
     dict s2 = Some json ∧
     words s2 = normalizeDictionary json ∧
     item <$> words s2 = l ∧
     (∀ w : WordWithProgress, w ∈ words s2 → progress w = defaultProgress) ∧
     NoDup (id <$> words s2) ∧
     progressStore s2 = default ∅ (localStorage s !! onFileChange_key json) ∧
     (localStorage s !! onFileChange_key json = None → progressStore s2 = ∅) ∧
     localStorage s1 = localStorage s ∧
     localStorage s2
     = <["word-progress-Default" := progressStore s2]> (localStorage s) ∧
     (∀ n, name json = Some n → n ≠ "" →
        saved_in_sync s1 ∧ saved_in_sync s2)).
Proof.
  split.
  { intros Hl. unfold onFileChange. by rewrite Hl. }
  intros l Hl s1 s2. subst s2 s1. unfold useLocalStorage_effect, onFileChange.
  rewrite Hl.
  cbn [localStorage_setItem setProgressStore setWords setDict dict words
       localStorage progressStore].
  change progressHookKey with "word-progress-Default".
  split; [done|]. split; [done|]. split.
  { unfold normalizeDictionary. rewrite Hl, fmap_imap. cbn.
    apply list_eq. intros i. rewrite list_lookup_imap. by destruct (l !! i). }
  split.
  { intros w Hw. apply list_elem_of_lookup in Hw as [i Hi].
    rewrite normalizeDictionary_lookup in Hi.
    destruct (default [] (wordList json) !! i); [|done].
    cbn in Hi. by injection Hi as <-. }
  split; [apply normalizeDictionary_NoDup|].
  split; [done|]. split; [by intros ->|]. split; [done|]. split; [done|].
  intros n Hn Hne. unfold saved_in_sync.
  cbn [localStorage progressStore].
  assert (∀ s' : App, dict s' = Some json → activeKey s' = onFileChange_key json)
    as Hk.
  { intros s' Hs'. rewrite activeKey_eq, Hs'. cbn. rewrite Hn. cbn.
    unfold onFileChange_key, getProgressKey. rewrite Hn. cbn.
    rewrite (or_str_nonempty n "Default"), (or_str_nonempty n "default") by done.
    by rewrite or_str_nonempty. }
  split.
  - by rewrite Hk.
  - rewrite Hk by done.
    cbn [localStorage_setItem setProgressStore setWords setDict localStorage
         progressStore].
    destruct (decide ("word-progress-Default" = onFileChange_key json)) as [<-|Hd].
    + by rewrite lookup_insert_eq.
    + by rewrite lookup_insert_ne.
Qed.

(* ===================================================================== *)
(** * Quiz: generation and answering, further properties *)
(* ===================================================================== *)

Lemma generateQuiz_result (fw : list WordWithProgress) (s : App) (r : Rand) :
  (generateQuiz fw s r).1 = s ∨
  ∃ i opts,
    (generateQuiz fw s r).1
    = setQuizAnswered None (setQuizOptions opts (setQuizIndex i s)).
Proof.
  destruct (generateQuiz fw s r) as [s' r'] eqn:E. cbn [fst].
  unfold generateQuiz in E. case_bool_decide.
  { left. by injection E. }
  unfold bind at 1 in E. cbn [random] in E.
  destruct (_ !! _) as [correct|] in E; [|left; by injection E].
  right. unfold bind, ret in E.
  destruct (sortM random_order _ _) as [sorted r1] in E.
  destruct (sortM random_order _ r1) as [opts r2] in E.
  injection E as <- _. by eexists _, _.
Qed.

(** X12. Generating a quiz touches nothing but the three quiz fields: the
    catalog, the word list, the progress store, the storage and the
    flashcard position are as before; with an empty active set and an empty
    catalog it changes nothing at all and draws no random number. *)
Theorem generateQuiz_frame (fw : list WordWithProgress) (s : App) (r : Rand) :
  dict (generateQuiz fw s r).1 = dict s ∧
  words (generateQuiz fw s r).1 = words s ∧
  progressStore (generateQuiz fw s r).1 = progressStore s ∧
  localStorage (generateQuiz fw s r).1 = localStorage s ∧
  flashIndex (generateQuiz fw s r).1 = flashIndex s ∧
  flashRevealed (generateQuiz fw s r).1 = flashRevealed s ∧
  (fw = [] → words s = [] → generateQuiz fw s r = (s, r)).
Proof.
  split; [|split; [|split; [|split; [|split; [|split]]]]];
    try (destruct (generateQuiz_result fw s r) as [->|(i & opts & ->)];
         reflexivity).
  intros -> Hws. unfold generateQuiz. rewrite Hws. reflexivity.
Qed.

Lemma quizKeyMap_digit (key : string) (idx : nat) :
  quizKeyMap key = Some idx →
  key = pretty (S idx) ∧ (idx < 4)%nat ∧ inherited_key key = false.
Proof.
  unfold quizKeyMap. intros Hk.
  destruct (String.eqb_spec key "1") as [->|_];
    [injection Hk as <-; split; [reflexivity|split; [lia|reflexivity]]|].
  destruct (String.eqb_spec key "2") as [->|_];
    [injection Hk as <-; split; [reflexivity|split; [lia|reflexivity]]|].
  destruct (String.eqb_spec key "3") as [->|_];
    [injection Hk as <-; split; [reflexivity|split; [lia|reflexivity]]|].
  destruct (String.eqb_spec key "4") as [->|_];
    [injection Hk as <-; split; [reflexivity|split; [lia|reflexivity]]|].
  discriminate.
Qed.

(** X14. The key handler of the quiz answers through the closure of the
    render in which it was installed.  For one of the keys 1 to 4: when
    that render has no options, or holds an answer, the key changes
    nothing, whatever the page shows by now; when that render has options
    and no answer, a key beyond its last option (the key "4" on a quiz of
    two or three options) records the choice and writes no progress;
    outside the quiz view the key changes nothing. *)
Theorem quiz_key_beyond_options (snap : App) (key : string) (idx : nat)
    (fw : list WordWithProgress) (tReviewed tDue : N) (s : App) :
  quizKeyMap key = Some idx →
  (quizOptions snap = [] ∨ quizAnswered snap ≠ None →
   quizKeydown snap quiz_mode key fw tReviewed tDue s = Some s) ∧
  (quizOptions snap ≠ [] → quizAnswered snap = None →
   (length (quizOptions snap) ≤ idx)%nat →
   quizKeydown snap quiz_mode key fw tReviewed tDue s
   = Some (setQuizAnswered (Some idx) s) ∧
   progressStore (setQuizAnswered (Some idx) s) = progressStore s ∧
   localStorage (setQuizAnswered (Some idx) s) = localStorage s) ∧
  (∀ mode, mode ≠ quiz_mode →
   quizKeydown snap mode key fw tReviewed tDue s = Some s).
Proof.
  intros Hkey. split; [|split].
  - intros Hsnap. unfold quizKeydown, onChooseFrom. rewrite Hkey.
    destruct Hsnap as [Ho|Ha].
    + by rewrite bool_decide_eq_true_2 by (by rewrite Ho).
    + case_bool_decide; [done|]. by rewrite bool_decide_eq_true_2.
  - intros Ho Ha Hlen. split; [|done].
    unfold quizKeydown, onChooseFrom. rewrite Hkey.
    rewrite bool_decide_eq_false_2 by (by destruct (quizOptions snap)).
    rewrite bool_decide_eq_false_2 by (rewrite Ha; by intros []).
    rewrite (lookup_ge_None_2 (quizOptions snap) idx) by done.
    by destruct (fw !! quizIndex snap).
  - intros mode Hmode. by destruct mode.
Qed.

Lemma quiz_key_beyond_options_witness :
  let fw := normalizeDictionary (catalog None [word "ant"; word "bee"]) in
  let s0 := initialApp (catalog None [word "ant"; word "bee"]) in
  let s := (generateQuiz fw s0 (constant_draws (2 # 3))).1 in
  quizKeyMap "4" = Some 3%nat ∧
  quizKeydown s0 quiz_mode "4" fw 5000 5001 s = Some s ∧
  quizKeydown s quiz_mode "4" fw 5000 5001 s = Some (setQuizAnswered (Some 3%nat) s).
Proof.
  intros fw s0 s.
  assert (quizKeyMap "4" = Some 3%nat) as Hk by reflexivity.
  assert (quizOptions s0 = [] ∨ quizAnswered s0 ≠ None) as Hs0
    by (left; reflexivity).
  assert (quizOptions s ≠ []) as Ho by (vm_compute; discriminate).
  assert (quizAnswered s = None) as Ha by (vm_compute; reflexivity).
  assert (length (quizOptions s) ≤ 3)%nat as Hl by (vm_compute; lia).
  split; [exact Hk|]. split.
  - exact (proj1 (quiz_key_beyond_options s0 "4" 3 fw 5000 5001 s Hk) Hs0).
  - exact (proj1 (proj1 (proj2 (quiz_key_beyond_options s "4" 3 fw 5000 5001 s Hk))
                    Ho Ha Hl)).
Defined.

(* ===================================================================== *)
(** * Flags and flashcard navigation *)
(* ===================================================================== *)

Lemma toggleKnown_twice (p : ProgressData) :
  toggleKnown_updater (toggleKnown_updater p) = p.
Proof. destruct p as [k ?]. unfold toggleKnown_updater. cbn. by destruct k. Qed.

Lemma toggleFavorite_twice (p : ProgressData) :
  toggleFavorite_updater (toggleFavorite_updater p) = p.
Proof. destruct p as [? f]. unfold toggleFavorite_updater. cbn. by destruct f. Qed.

Lemma mergeProgress_ext (m1 m2 : gmap string ProgressData)
    (ws : list WordWithProgress) :
  (∀ k, currentOrDefault m1 k = currentOrDefault m2 k) →
  mergeProgress m1 ws = mergeProgress m2 ws.
Proof.
  intros Hm. unfold mergeProgress. apply map_ext. intros w. by rewrite Hm.
Qed.

(** X15. Pressing a flag button twice shows every word as before, also a
    word that had no stored entry; and the two flags are independent: the
    order in which "known" and "favorite" are toggled makes no difference
    to what is shown. *)
Theorem toggle_flags (w v : WordWithProgress) (s : App)
    (ws : list WordWithProgress) :
  mergeProgress (progressStore (toggleKnown w (toggleKnown w s))) ws
  = mergeProgress (progressStore s) ws ∧
  mergeProgress (progressStore (toggleFavorite w (toggleFavorite w s))) ws
  = mergeProgress (progressStore s) ws ∧
  mergeProgress (progressStore (toggleFavorite v (toggleKnown w s))) ws
  = mergeProgress (progressStore (toggleKnown w (toggleFavorite v s))) ws.
Proof.
  unfold toggleKnown, toggleFavorite.
  split; [|split]; apply mergeProgress_ext; intros k;
    rewrite !currentOrDefault_update.
  - destruct (decide (k = value w)) as [->|]; [|done].
    rewrite decide_True by done. apply toggleKnown_twice.
  - destruct (decide (k = value w)) as [->|]; [|done].
    rewrite decide_True by done. apply toggleFavorite_twice.
  - repeat case_decide; try congruence; try done.
    match goal with E : value _ = value _ |- _ => by rewrite E end.
Qed.

Lemma flashPrev_index (fw : list WordWithProgress) (s : App) :
  let m := Nat.max 1 (length fw) in
  flashIndex (flashPrev fw s) = ((flashIndex s + (m - 1)) `mod` m)%nat.
Proof.
  intros m. unfold flashPrev. cbn [setFlashIndex flashIndex]. fold m.
  rewrite Z.rem_mod_nonneg by lia.
  replace (Z.of_nat (flashIndex s) - 1 + Z.of_nat m)
    with (Z.of_nat (flashIndex s + (m - 1))) by lia.
  rewrite <-Nat2Z.inj_mod. apply Nat2Z.id.
Qed.

Lemma step_back_forth (i m : nat) :
  (i < m)%nat →
  (((i + 1) `mod` m + (m - 1)) `mod` m = i)%nat ∧
  (((i + (m - 1)) `mod` m + 1) `mod` m = i)%nat.
Proof.
  intros Hi. split.
  - destruct (decide (i + 1 = m)%nat) as [E|E].
    + rewrite E, Nat.Div0.mod_same. cbn [Nat.add].
      rewrite Nat.mod_small by lia. lia.
    + rewrite (Nat.mod_small (i + 1)) by lia.
      replace (i + 1 + (m - 1))%nat with (i + 1 * m)%nat by lia.
      rewrite Nat.Div0.mod_add. by apply Nat.mod_small.
  - destruct (decide (i = 0)%nat) as [->|E].
    + cbn [Nat.add]. rewrite (Nat.mod_small (m - 1)) by lia.
      replace (m - 1 + 1)%nat with m by lia. apply Nat.Div0.mod_same.
    + replace (i + (m - 1))%nat with ((i - 1) + 1 * m)%nat by lia.
      rewrite Nat.Div0.mod_add, (Nat.mod_small (i - 1)) by lia.
      replace (i - 1 + 1)%nat with i by lia. by apply Nat.mod_small.
Qed.

Lemma setFlashIndex_same (s : App) (i : nat) :
  i = flashIndex s → setFlashIndex i s = s.
Proof. intros ->. by destruct s. Qed.

(** X16. Flashcard navigation stays on the list: after the step forward,
    the step back, or a grade, the index is below the length of a
    non-empty list, so there is a current card; a step forward followed by
    a step back (or the other way round) returns to the same state; grading
    moves to the card the step forward moves to; the reset goes to the
    first card. *)
Theorem flash_navigation (fw : list WordWithProgress) (s : App) :
  let m := Nat.max 1 (length fw) in
  (flashIndex (flashNext fw s) < m)%nat ∧
  (flashIndex (flashPrev fw s) < m)%nat ∧
  (fw ≠ [] → is_Some (fw !! flashIndex (flashNext fw s)) ∧
             is_Some (fw !! flashIndex (flashPrev fw s))) ∧
  ((flashIndex s < m)%nat →
     flashPrev fw (flashNext fw s) = s ∧ flashNext fw (flashPrev fw s) = s) ∧
  (∀ grade tReviewed tDue, is_Some (fw !! flashIndex s) →
     flashIndex (gradeFlash fw grade tReviewed tDue s)
     = flashIndex (flashNext fw s)) ∧
  flashIndex (flashReset s) = 0%nat.
Proof.
  intros m.
  assert (0 < m)%nat as Hm by (unfold m; lia).
  assert (flashIndex (flashNext fw s) < m)%nat as Hnext.
  { cbn. apply Nat.mod_upper_bound. lia. }
  assert (flashIndex (flashPrev fw s) < m)%nat as Hprev.
  { rewrite flashPrev_index. apply Nat.mod_upper_bound. fold m. lia. }
  split; [done|]. split; [done|]. split; [|split; [|split]].
  - intros Hfw. assert (m = length fw) as Hlen.
    { unfold m. destruct fw; [done|cbn; lia]. }
    rewrite Hlen in Hnext, Hprev.
    split; by apply lookup_lt_is_Some_2.
  - intros Hi. destruct (step_back_forth (flashIndex s) m Hi) as [H1 H2]. split.
    + change (flashPrev fw (flashNext fw s))
        with (setFlashIndex (flashIndex (flashPrev fw (flashNext fw s))) s).
      apply setFlashIndex_same. rewrite flashPrev_index. exact H1.
    + change (flashNext fw (flashPrev fw s))
        with (setFlashIndex (flashIndex (flashNext fw (flashPrev fw s))) s).
      apply setFlashIndex_same. unfold flashNext at 1.
      cbn [setFlashIndex flashIndex]. rewrite flashPrev_index. exact H2.
  - intros grade tReviewed tDue [w Hw]. unfold gradeFlash. by rewrite Hw.
  - done.
Qed.

(* ===================================================================== *)
(** * Scheduling and the due queue *)
(* ===================================================================== *)

Lemma INTERVALS_min (grade : Grade) : (10000 ≤ INTERVALS grade)%N.
Proof. destruct grade; cbn; lia. Qed.

Lemma due_after_grade (grade : Grade) (tReviewed tDue nowTs : N) (p : ProgressData) :
  due_in_filter (gradeFlash_updater grade tReviewed tDue p) nowTs
  = (tDue + INTERVALS grade <=? nowTs)%N.
Proof.
  unfold due_in_filter. cbn [gradeFlash_updater nextDue].
  pose proof (INTERVALS_min grade).
  by assert ((tDue + INTERVALS grade =? 0)%N = false) as ->
    by (apply N.eqb_neq; lia).
Qed.

(** X17. A graded flashcard leaves the due queue for its interval: in the
    merged view after the grade, every entry with the headword of the card
    is due exactly from the clock reading plus the interval of the grade
    on; before that time the due-only selection holds no entry with this
    headword. *)
Theorem graded_card_due_again `{JSString} (fw : list WordWithProgress)
    (grade : Grade) (tReviewed tDue : N) (s : App) (w : WordWithProgress)
    (f : Filters) (nowTs : N) :
  fw !! flashIndex s = Some w →
  let view := mergeProgress
                (progressStore (gradeFlash fw grade tReviewed tDue s)) (words s) in
  (∀ x : WordWithProgress, x ∈ view → value x = value w →
     due_in_filter (progress x) nowTs = (tDue + INTERVALS grade <=? nowTs)%N) ∧
  ((nowTs < tDue + INTERVALS grade)%N →
     ∀ x : WordWithProgress,
       x ∈ filteredWords view (setOnlyDue true f) nowTs → value x ≠ value w).
Proof.
  intros Hw view.
  assert (∀ x : WordWithProgress, x ∈ view → value x = value w →
            due_in_filter (progress x) nowTs
            = (tDue + INTERVALS grade <=? nowTs)%N) as Hdue.
  { intros x Hx Hv. subst view.
    apply elem_of_mergeProgress in Hx as (y & _ & ->). cbn in Hv |- *.
    unfold currentOrDefault. rewrite Hv, (gradeFlash_store fw grade _ _ s w Hw).
    apply due_after_grade. }
  split; [done|]. intros Hnow x Hx Hv.
  apply elem_of_filteredWords in Hx as [Hx Hkeep].
  rewrite keep_onlyDue, andb_true_iff in Hkeep. destruct Hkeep as [_ Hd].
  rewrite (Hdue x Hx Hv) in Hd. apply N.leb_le in Hd. lia.
Qed.

Lemma graded_card_due_again_witness :
  let d := catalog None [word "ant"; word "bee"] in
  let s := initialApp d in
  let ant := mkWord (word "ant") "ant-0" defaultProgress in
  words s !! flashIndex s = Some ant ∧
  id <$> filteredWords (H:=ascii_strings)
           (mergeProgress (progressStore (gradeFlash (words s) good 5000 5000 s))
              (words s))
           (setOnlyDue true (no_filters "alpha")) 6000 = ["bee-1"] ∧
  ∀ x : WordWithProgress,
    x ∈ filteredWords (H:=ascii_strings)
          (mergeProgress (progressStore (gradeFlash (words s) good 5000 5000 s))
             (words s))
          (setOnlyDue true (no_filters "alpha")) 6000 →
    value x ≠ value ant.
Proof.
  intros d s ant.
  assert (words s !! flashIndex s = Some ant) as Hw by (vm_compute; reflexivity).
  split; [exact Hw|]. split; [vm_compute; reflexivity|].
  apply (proj2 (@graded_card_due_again ascii_strings (words s) good 5000 5000 s ant
                  (no_filters "alpha") 6000 Hw)).
  vm_compute. reflexivity.
Defined.

(* ===================================================================== *)
(** * A session: what every sequence of events keeps *)
(* ===================================================================== *)

Lemma progress_ok_default : progress_ok defaultProgress.
Proof.
  unfold progress_ok. cbn. repeat split; try lia; try done.
Qed.

Lemma progress_ok_grade (grade : Grade) (tReviewed tDue : N) (p : ProgressData) :
  progress_ok p → progress_ok (gradeFlash_updater grade tReviewed tDue p).
Proof.
  intros (H1 & H2 & H3 & _ & _). unfold progress_ok.
  cbn [gradeFlash_updater seenCount correctCount streak lastReviewed nextDue].
  pose proof (INTERVALS_min grade).
  split; [destruct grade; cbn; lia|]. split; [destruct grade; cbn; lia|].
  split; [destruct grade; cbn; lia|]. split; [lia|].
  intros _. split; [by eexists|]. eexists. split; [done|lia].
Qed.

Lemma progress_ok_choose (isCorrect : bool) (tReviewed tDue : N) (p : ProgressData) :
  progress_ok p → progress_ok (onChoose_updater isCorrect tReviewed tDue p).
Proof.
  intros Hp. destruct isCorrect.
  - rewrite onChoose_updater_good. by apply progress_ok_grade.
  - rewrite onChoose_updater_again. by apply progress_ok_grade.
Qed.

Lemma progress_ok_toggleKnown (p : ProgressData) :
  progress_ok p → progress_ok (toggleKnown_updater p).
Proof. done. Qed.

Lemma progress_ok_toggleFavorite (p : ProgressData) :
  progress_ok p → progress_ok (toggleFavorite_updater p).
Proof. done. Qed.

(** What a state keeps through a step. *)
Definition kept (s s' : App) : Prop :=
  store_ok s' ∧ saved_in_sync s' ∧ dict s' = dict s ∧
  id <$> words s' = id <$> words s.

Lemma kept_refl (s : App) : store_ok s → saved_in_sync s → kept s s.
Proof. by intros ??. Qed.

Lemma updateProgress_keeps (w : string) (u : ProgressData → ProgressData) (s : App) :
  (∀ p, progress_ok p → progress_ok (u p)) →
  store_ok s → saved_in_sync s →
  kept s (updateProgress w u s).
Proof.
  intros Hu Hok Hsync. split; [|split; [|done]].
  - unfold store_ok. rewrite updateProgress_store.
    apply map_Forall_insert_2; [|done]. apply Hu.
    unfold currentOrDefault. destruct (progressStore s !! w) as [p|] eqn:E.
    + by apply (Hok w p).
    + apply progress_ok_default.
  - unfold saved_in_sync.
    change (activeKey (updateProgress w u s)) with (activeKey s).
    rewrite updateProgress_storage. by rewrite lookup_insert_eq.
Qed.

Lemma onChooseFrom_keeps (snap : App) (fw : list WordWithProgress) (idx : nat)
    (tReviewed tDue : N) (s : App) :
  (∀ w : WordWithProgress, w ∈ fw → inherited_key (value w) = false) →
  store_ok s → saved_in_sync s →
  ∃ s', onChooseFrom snap fw idx tReviewed tDue s = Some s' ∧ kept s s'.
Proof.
  intros Hsafe Hok Hsync. unfold onChooseFrom.
  repeat case_bool_decide; try (by eexists).
  destruct (fw !! quizIndex snap) as [c|] eqn:Ec; [|by eexists].
  destruct (quizOptions snap !! idx) as [ch|]; [|by eexists].
  rewrite updateProgressJS_Some
    by (left; apply Hsafe; by eapply list_elem_of_lookup_2).
  eexists. split; [done|].
  by apply (updateProgress_keeps (value c) _ (setQuizAnswered (Some idx) s));
    [apply progress_ok_choose|..].
Qed.

Lemma handle_keeps (e : Event) (s : App) :
  event_safe e → store_ok s → saved_in_sync s →
  ∃ s', handle e s = Some s' ∧ kept s s'.
Proof.
  intros Hsafe Hok Hsync.
  destruct e as [fw g t1 t2|fw idx t1 t2|snap key fw t1 t2|fw r|w|w|fw|fw| | |];
    cbn [handle event_safe] in *.
  - unfold gradeFlashJS. destruct (fw !! flashIndex s) as [c|] eqn:Ec;
      [|by eexists].
    rewrite updateProgressJS_Some
      by (left; apply Hsafe; by eapply list_elem_of_lookup_2).
    eexists. split; [done|].
    by destruct (updateProgress_keeps (value c) (gradeFlash_updater g t1 t2) s)
      as (?&?&?&?); [apply progress_ok_grade|..].
  - by apply onChooseFrom_keeps.
  - destruct Hsafe as [Hkey Hsafe]. unfold quizKeydown.
    destruct (quizKeyMap key); [by apply onChooseFrom_keeps|].
    rewrite Hkey. by eexists.
  - eexists. split; [done|].
    destruct (generateQuiz_result fw s r) as [->|(i & opts & ->)]; done.
  - unfold toggleKnownJS. rewrite updateProgressJS_Some by by left.
    eexists. split; [done|].
    by apply updateProgress_keeps; [apply progress_ok_toggleKnown|..].
  - unfold toggleFavoriteJS. rewrite updateProgressJS_Some by by left.
    eexists. split; [done|].
    by apply updateProgress_keeps; [apply progress_ok_toggleFavorite|..].
  - by eexists.
  - by eexists.
  - by eexists.
  - eexists. split; [done|]. split; [done|]. split; [done|]. split; [done|].
    unfold mergeEffect. cbn [words setWords].
    apply mergeProgress_ids.
  - eexists. split; [done|]. split; [done|]. split; [|done].
    unfold saved_in_sync, useLocalStorage_effect.
    change (activeKey (localStorage_setItem progressHookKey (progressStore s) s))
      with (activeKey s).
    cbn [localStorage_setItem localStorage progressStore].
    destruct (decide (progressHookKey = activeKey s)) as [<-|Hne].
    + by rewrite lookup_insert_eq.
    + by rewrite lookup_insert_ne.
Qed.

(** X18. Take any sequence of grades, quiz answers by click or by key
    (through the closure of any render), quiz generations, flag toggles,
    navigation steps and effects in which no word that may be updated has
    the name of a member inherited from [Object.prototype], and no key has
    such a name; start from a state whose stored progress is in step with
    the store and whose records are well formed (as after start-up, when
    both are empty).  Then every step is defined, and in the end: every
    progress record has 0 ≤ streak ≤ correctCount ≤ seenCount, no
    timestamps while never reviewed and both once reviewed; what is stored
    for the active catalog is the store in memory, so a reload changes
    nothing; the catalog and the ids of the word list are as at the
    start. *)
Theorem session_invariant (es : list Event) (s : App) :
  Forall event_safe es → store_ok s → saved_in_sync s →
  ∃ s' : App,
    session es s = Some s' ∧
    store_ok s' ∧
    saved_in_sync s' ∧
    progressStore (loadStoredProgress s') = progressStore s' ∧
    dict s' = dict s ∧
    id <$> words s' = id <$> words s.
Proof.
  revert s. induction es as [|e es IH]; intros s Hsafe Hok Hsync.
  { exists s. split; [done|]. split; [done|]. split; [done|].
    split; [exact Hsync|]. done. }
  apply Forall_cons in Hsafe as [He Hes].
  destruct (handle_keeps e s He Hok Hsync) as (s1 & Hs1 & Hok' & Hsync' & Hd & Hw).
  destruct (IH s1 Hes Hok' Hsync') as (s' & Hs' & H1 & H2 & H3 & H4 & H5).
  exists s'. cbn [session]. rewrite Hs1. rewrite <-Hd, <-Hw. done.
Qed.

Lemma initialApp_ok (d : DictionaryFile) :
  store_ok (initialApp d) ∧ saved_in_sync (initialApp d).
Proof.
  split.
  - unfold store_ok. cbn. apply map_Forall_empty.
  - unfold saved_in_sync. cbn. by rewrite lookup_empty.
Qed.

Lemma inherited_key_sound (l : list WordWithProgress) :
  forallb (λ w : WordWithProgress, negb (inherited_key (value w))) l = true →
  ∀ w : WordWithProgress, w ∈ l → inherited_key (value w) = false.
Proof.
  intros Hl w Hw. apply list_elem_of_In in Hw.
  rewrite forallb_forall in Hl. specialize (Hl w Hw).
  by destruct (inherited_key (value w)).
Qed.

Lemma session_invariant_witness :
  let d := catalog (Some "cet4") [word "ant"; word "bee"] in
  let fw := normalizeDictionary d in
  let s0 := initialApp d in
  let es := [EGradeFlash fw good 5000 5001; EMerge; EStoreHook;
             EToggleFavorite (mkWord (word "bee") "bee-1" defaultProgress);
             EGenerateQuiz fw (constant_draws (1 # 3)); EChoose fw 1 7000 7001;
             EQuizKey s0 "2" fw 8000 8001;
             EFlashPrev fw; EGradeFlash fw again 9000 9001] in
  Forall event_safe es ∧ store_ok s0 ∧ saved_in_sync s0 ∧
  ∃ s' : App, session es s0 = Some s' ∧ store_ok s' ∧ saved_in_sync s'.
Proof.
  intros d fw s0 es.
  destruct (initialApp_ok d) as [Hok Hsync].
  assert (∀ w : WordWithProgress, w ∈ fw → inherited_key (value w) = false)
    as Hfw by (apply inherited_key_sound; vm_compute; reflexivity).
  assert (Forall event_safe es) as Hes.
  { subst es.
    repeat (apply Forall_cons_2;
            [cbn [event_safe];
             first [exact I | exact Hfw | reflexivity
                   | split; [reflexivity|exact Hfw]]|]).
    apply Forall_nil_2. }
  split; [exact Hes|]. split; [exact Hok|]. split; [exact Hsync|].
  destruct (session_invariant es s0 Hes Hok Hsync) as (s' & Hs' & H1 & H2 & _).
  exists s'. split; [exact Hs'|]. split; [exact H1|exact H2].
Defined.

Example session_sample :
  let d := catalog (Some "cet4") [word "ant"; word "bee"] in
  let fw := normalizeDictionary d in
  let s0 := initialApp d in
  let es := [EGradeFlash fw good 5000 5001; EMerge; EStoreHook;
             EToggleFavorite (mkWord (word "bee") "bee-1" defaultProgress);
             EGenerateQuiz fw (constant_draws (1 # 3)); EChoose fw 1 7000 7001;
             EQuizKey s0 "2" fw 8000 8001;
             EFlashPrev fw; EGradeFlash fw again 9000 9001] in
  (progressStore <$> session es s0) ≫= (.!! "ant")
  = Some {| known := false; favorite := false; seenCount := 3; correctCount := 2;
            streak := 0; lastReviewed := Some 9000%N; nextDue := Some 19001%N |} ∧
  (progressStore <$> session es s0) ≫= (.!! "bee")
  = Some {| known := false; favorite := true; seenCount := 0; correctCount := 0;
            streak := 0; lastReviewed := None; nextDue := None |} ∧
  session [EGradeFlash [mkWord (word "constructor") "constructor-0" defaultProgress]
             good 5000 5001] s0 = None.
Proof. vm_compute. repeat split; reflexivity. Qed.

(* ===================================================================== *)
(** * Pronunciation: the fallback sequence *)
(* ===================================================================== *)

Section AudioFacts.
Variable encodeURIComponent : string → string.
Variable playOnce : string → PlayOutcome.

Lemma try_queue_spec (word : string) (queue : list nat) :
  let urls := url_typed encodeURIComponent word <$> queue in
  match (try_queue encodeURIComponent playOnce word queue).2 with
  | None =>
      (try_queue encodeURIComponent playOnce word queue).1 = urls ∧
      ∀ u, u ∈ urls → playOnce u = Rejected
  | Some r =>
      ∃ (k : nat) (last : string),
        (k < length queue)%nat ∧
        (try_queue encodeURIComponent playOnce word queue).1 = take (S k) urls ∧
        urls !! k = Some last ∧
        (∀ u, u ∈ take k urls → playOnce u = Rejected) ∧
        match playOnce last with
        | Resolved => r = Played
        | Pending => r = Waiting
        | Rejected => False
        end
  end.
Proof.
  induction queue as [|t queue IH]; cbn [try_queue fmap list_fmap].
  { cbn. split; [done|]. intros u Hu. by apply elem_of_nil in Hu. }
  destruct (playOnce (url_typed encodeURIComponent word t)) eqn:Et.
  - cbn. exists 0%nat, (url_typed encodeURIComponent word t).
    rewrite Et. repeat split; try done; try lia.
    intros u Hu. by apply elem_of_nil in Hu.
  - cbn zeta in IH.
    destruct (try_queue encodeURIComponent playOnce word queue) as [tried res].
    cbn [fst snd] in *. destruct res as [r|].
    + destruct IH as (k & last & Hk & Htried & Hlast & Hrej & Hout).
      exists (S k), last. cbn [length]. split; [lia|].
      split; [cbn; by rewrite Htried|]. split; [done|]. split; [|done].
      intros u Hu. cbn in Hu. apply elem_of_cons in Hu as [->|Hu]; [done|].
      by apply Hrej.
    + destruct IH as [Htried Hrej]. split; [by rewrite Htried|].
      intros u Hu. apply elem_of_cons in Hu as [->|Hu]; [done|]. by apply Hrej.
  - cbn. exists 0%nat, (url_typed encodeURIComponent word t).
    rewrite Et. repeat split; try done; try lia.
    intros u Hu. by apply elem_of_nil in Hu.
Qed.

(** X19. A pronunciation request tries the candidate URLs in order (for
    "us" the types 2, 0, 1, for "uk" the types 1, 0, 2, then the URL without
    a type) and stops at the first that is not rejected: the URLs tried are
    an initial part of the candidates, at most four, every one before the
    last was rejected, and the outcome of the last decides the result:
    played, still waiting, or, only when all four were rejected, an error
    that is logged. *)
Theorem playYoudaoAudio_fallback (word : string) (variant : Variant) :
  let all := audio_candidates encodeURIComponent word variant in
  let tried := (playYoudaoAudio encodeURIComponent playOnce word variant).1 in
  let res := (playYoudaoAudio encodeURIComponent playOnce word variant).2 in
  length all = 4%nat ∧
  ∃ (k : nat) (last : string),
    (k < 4)%nat ∧
    tried = take (S k) all ∧
    all !! k = Some last ∧
    (∀ u, u ∈ take k all → playOnce u = Rejected) ∧
    match playOnce last with
    | Resolved => res = Played
    | Pending => res = Waiting
    | Rejected => res = Logged ∧ k = 3%nat
    end.
Proof.
  intros all tried res. subst all tried res.
  split; [by destruct variant|].
  unfold playYoudaoAudio, audio_candidates.
  pose proof (try_queue_spec word (youdao_queue variant)) as Hq. cbn zeta in Hq.
  assert (length (url_typed encodeURIComponent word <$> youdao_queue variant)
          = 3%nat) as Hlen by (by destruct variant).
  assert (length (youdao_queue variant) = 3%nat) as Hlen' by (by destruct variant).
  destruct (try_queue encodeURIComponent playOnce word (youdao_queue variant))
    as [tried res]. cbn [fst snd] in Hq. destruct res as [r|].
  - destruct Hq as (k & last & Hk & Htried & Hlast & Hrej & Hout).
    exists k, last. cbn [fst snd]. split; [lia|].
    split; [rewrite take_app_le by lia; done|].
    split; [by apply lookup_app_l_Some|].
    split; [rewrite take_app_le by lia; done|].
    by destruct (playOnce last).
  - destruct Hq as [-> Hrej].
    exists 3%nat, (url_plain encodeURIComponent word).
    split; [lia|].
    assert (take 4 ((url_typed encodeURIComponent word <$> youdao_queue variant)
                    ++ [url_plain encodeURIComponent word])
            = (url_typed encodeURIComponent word <$> youdao_queue variant)
              ++ [url_plain encodeURIComponent word]) as Hall.
    { apply take_ge. rewrite length_app, Hlen. cbn. lia. }
    assert (take 3 ((url_typed encodeURIComponent word <$> youdao_queue variant)
                    ++ [url_plain encodeURIComponent word])
            = url_typed encodeURIComponent word <$> youdao_queue variant) as Hpre.
    { rewrite take_app_le by lia. apply take_ge. lia. }
    rewrite Hall, Hpre.
    assert (((url_typed encodeURIComponent word <$> youdao_queue variant)
             ++ [url_plain encodeURIComponent word]) !! 3%nat
            = Some (url_plain encodeURIComponent word)) as Hlast.
    { rewrite lookup_app_r by lia. by rewrite Hlen. }
    destruct (playOnce (url_plain encodeURIComponent word)); cbn [fst snd];
      repeat split; done.
Qed.

End AudioFacts.

(** All typed URLs rejected for "us": the plain URL is tried last. *)
Example playYoudaoAudio_sample :
  let plain := "https://dict.youdao.com/dictvoice?audio=cat" in
  playYoudaoAudio (λ w, w)
    (λ url, if (url =? plain)%string then Resolved else Rejected) "cat" us
  = (["https://dict.youdao.com/dictvoice?audio=cat&type=2";
      "https://dict.youdao.com/dictvoice?audio=cat&type=0";
      "https://dict.youdao.com/dictvoice?audio=cat&type=1";
      "https://dict.youdao.com/dictvoice?audio=cat"], Played).
Proof. vm_compute. reflexivity. Qed.
